(** * TrustedLauncher: the token-escalation-and-launch pipeline

    A shallow embedding of [NSudoCreateProcess] (NSudoAPI.cpp), of its
    scope-exit guard [Mile::ScopeExitEventHandler], of the command-line
    entry point [NSudoMain] (NSudo.cpp) and of the handle-ownership wrapper
    [M2::CObject] (M2WindowsHelpers.h), together with the properties the
    specification states about them.

    The operating system is a record [World]: kernel token objects, the
    handle table of the calling process, the impersonation token of the
    calling thread, the heap blocks handed out to the pipeline, the processes
    created, and a chronological trace of the calls made.  Every call whose
    status the pipeline inspects can be made to fail by a fault plan
    [fault : Stage -> HRESULT]; the calls whose status it discards (the
    releases, the priority, resume and wait calls, the reset of the thread
    token) act as the platform documents them. *)

From Stdlib Require Import ZArith Lia Bool Ascii String.
From stdpp Require Import base option list gmap.

Local Open Scope Z_scope.

(** ** Windows base types and constants *)

Definition HRESULT := Z.
Definition DWORD := Z.
Definition HANDLE := Z.
Definition PVOID := Z.
Definition LUID := Z.
Definition LPCWSTR := string.

#[global] Typeclasses Transparent HRESULT DWORD HANDLE PVOID LUID LPCWSTR.

Definition S_OK : HRESULT := 0.
Definition INVALID_HANDLE_VALUE : HANDLE := -1.
Definition nullptr : Z := 0.

Definition MAXIMUM_ALLOWED : DWORD := 0x02000000.
Definition SE_PRIVILEGE_ENABLED : DWORD := 0x00000002.
Definition SE_DEBUG_NAME : string := "SeDebugPrivilege".
Definition SE_DEBUG_PRIVILEGE : LUID := 20.
Definition SECURITY_MANDATORY_SYSTEM_RID : DWORD := 0x00004000.
Definition NORMAL_PRIORITY_CLASS : DWORD := 0x00000020.
Definition ABOVE_NORMAL_PRIORITY_CLASS : DWORD := 0x00008000.
Definition SW_SHOWDEFAULT : DWORD := 10.
Definition STARTF_USESHOWWINDOW : DWORD := 0x00000001.
Definition CREATE_SUSPENDED : DWORD := 0x00000004.
Definition CREATE_NEW_CONSOLE : DWORD := 0x00000010.
Definition CREATE_UNICODE_ENVIRONMENT : DWORD := 0x00000400.

(** [HRESULT_FROM_WIN32] of winerror.h, as a signed 32-bit value. *)
Definition HRESULT_FROM_WIN32 (x : Z) : HRESULT :=
  if x <=? 0 then x
  else Z.lor (Z.lor (Z.land x 0xFFFF) (Z.shiftl 7 16)) 0x80000000 - 2 ^ 32.

Definition E_FILE_NOT_FOUND : HRESULT := HRESULT_FROM_WIN32 2.
Definition E_HANDLE : HRESULT := HRESULT_FROM_WIN32 6.
Definition E_INVALIDARG : HRESULT := HRESULT_FROM_WIN32 87.
Definition E_ACCESSDENIED : HRESULT := HRESULT_FROM_WIN32 5.
Definition E_NO_TOKEN : HRESULT := HRESULT_FROM_WIN32 1008.
Definition E_SERVICE_DOES_NOT_EXIST : HRESULT := HRESULT_FROM_WIN32 1060.
Definition E_NO_SUCH_PRIVILEGE : HRESULT := HRESULT_FROM_WIN32 1313.
Definition E_BAD_TOKEN_TYPE : HRESULT := HRESULT_FROM_WIN32 1349.

(** The test [hr == S_OK] of the source. *)
Definition is_S_OK (hr : HRESULT) : bool := hr =? S_OK.

(** ** Tokens, kernel objects and the state of the system *)

Inductive TOKEN_TYPE := TokenPrimary | TokenImpersonation.

Inductive SECURITY_IMPERSONATION_LEVEL :=
| SecurityAnonymous
| SecurityIdentification
| SecurityImpersonation
| SecurityDelegation.

Inductive TOKEN_INFORMATION_CLASS := TokenSessionId.

Record LUID_AND_ATTRIBUTES := {
  Luid : LUID;
  Attributes : DWORD
}.

(** Modelled from the spec: a token is an OS security context with a
    kind, a session identifier, a mandatory integrity label and a set of
    privileges, each a name with its attributes. *)
Record Token := {
  tk_type : TOKEN_TYPE;
  tk_level : SECURITY_IMPERSONATION_LEVEL;
  tk_session : DWORD;
  tk_label : DWORD;
  tk_privileges : list LUID_AND_ATTRIBUTES
}.

Record STARTUPINFOW := {
  lpDesktop : string;
  dwFlags : DWORD;
  wShowWindow : DWORD
}.

Record PROCESS_INFORMATION := {
  hProcess : HANDLE;
  hThread : HANDLE
}.

(** Modelled from the spec: what the platform records of a process it
    created. *)
Record Process := {
  p_session : DWORD;
  p_label : DWORD;
  p_command_line : string;
  p_directory : option string;
  p_desktop : string;
  p_environment : option nat;
  p_creation_flags : DWORD;
  p_priority : DWORD;
  p_suspended : bool
}.

(** Modelled from the spec: what a handle of the calling process refers
    to. *)
Inductive KObject :=
| KToken (id : nat)
| KProcess (pid : nat)
| KThread (pid : nat).

(** Modelled from the spec: what a pointer handed out to the pipeline
    refers to. *)
Inductive Block :=
| EnvironmentBlock (token : nat)
| StringBuffer (text : string).

(** The call sites of [NSudoCreateProcess] whose status it inspects, in
    program order. *)
Inductive Stage :=
| S_OpenCurrentProcessToken
| S_DuplicateCurrentProcessToken
| S_GetPrivilegeValue
| S_AdjustTokenPrivilegesSimple
| S_SetThreadTokenDuplicated
| S_OpenCurrentThreadToken
| S_GetTokenInformation
| S_OpenLsassProcessToken
| S_DuplicateLsassToken
| S_AdjustSystemTokenPrivileges
| S_SetThreadTokenSystem
| S_OpenServiceProcessToken
| S_DuplicateServiceToken
| S_SetTokenInformation
| S_AdjustTokenAllPrivileges
| S_SetTokenMandatoryLabel
| S_CreateEnvironmentBlock
| S_ExpandEnvironmentStrings
| S_CreateProcessAsUser.

#[global] Instance Stage_eq_dec : EqDecision Stage.
Proof. solve_decision. Defined.

Definition stage_order : list Stage :=
  [ S_OpenCurrentProcessToken; S_DuplicateCurrentProcessToken;
    S_GetPrivilegeValue; S_AdjustTokenPrivilegesSimple;
    S_SetThreadTokenDuplicated; S_OpenCurrentThreadToken;
    S_GetTokenInformation; S_OpenLsassProcessToken; S_DuplicateLsassToken;
    S_AdjustSystemTokenPrivileges; S_SetThreadTokenSystem;
    S_OpenServiceProcessToken; S_DuplicateServiceToken;
    S_SetTokenInformation; S_AdjustTokenAllPrivileges;
    S_SetTokenMandatoryLabel; S_CreateEnvironmentBlock;
    S_ExpandEnvironmentStrings; S_CreateProcessAsUser ].

(** The observable trace: one event per call made, in the order made. *)
Inductive Event :=
| Called (s : Stage) (hr : HRESULT)
| Opened (h : HANDLE) (o : KObject)
| Closed (h : HANDLE)
| ThreadTokenSet (h : HANDLE)
| SessionSet (h : HANDLE) (session : DWORD)
| EnvironmentCreated (p : PVOID)
| EnvironmentDestroyed (p : PVOID)
| Allocated (p : PVOID)
| Freed (p : PVOID)
| ProcessCreated (pid : nat)
| PriorityCall (h : HANDLE) (class : DWORD)
| PrioritySet (pid : nat) (class : DWORD)
| ResumeCall (h : HANDLE)
| Resumed (pid : nat)
| Waited (h : HANDLE)
| ComInitialized.

#[global] Instance KObject_eq_dec : EqDecision KObject.
Proof. solve_decision. Defined.

#[global] Instance Event_eq_dec : EqDecision Event.
Proof. solve_decision. Defined.

(** Modelled from the spec: the state of the platform as one pipeline
    invocation can see and change it. *)
Record World := {
  w_tokens : list Token;
  w_process_token : nat;
  w_lsass_token : nat;
  w_services : list (string * nat);
  w_expand : string -> string;
  w_handles : gmap Z KObject;
  w_next_handle : HANDLE;
  w_thread : option nat;
  w_heap : gmap Z Block;
  w_next_block : PVOID;
  w_processes : list Process;
  w_trace : list Event
}.

Definition set_tokens (v : list Token) (w : World) : World :=
  {| w_tokens := v; w_process_token := w_process_token w;
     w_lsass_token := w_lsass_token w; w_services := w_services w;
     w_expand := w_expand w; w_handles := w_handles w;
     w_next_handle := w_next_handle w; w_thread := w_thread w;
     w_heap := w_heap w; w_next_block := w_next_block w;
     w_processes := w_processes w; w_trace := w_trace w |}.

Definition set_handles (v : gmap Z KObject) (n : HANDLE) (w : World) : World :=
  {| w_tokens := w_tokens w; w_process_token := w_process_token w;
     w_lsass_token := w_lsass_token w; w_services := w_services w;
     w_expand := w_expand w; w_handles := v;
     w_next_handle := n; w_thread := w_thread w;
     w_heap := w_heap w; w_next_block := w_next_block w;
     w_processes := w_processes w; w_trace := w_trace w |}.

Definition set_thread (v : option nat) (w : World) : World :=
  {| w_tokens := w_tokens w; w_process_token := w_process_token w;
     w_lsass_token := w_lsass_token w; w_services := w_services w;
     w_expand := w_expand w; w_handles := w_handles w;
     w_next_handle := w_next_handle w; w_thread := v;
     w_heap := w_heap w; w_next_block := w_next_block w;
     w_processes := w_processes w; w_trace := w_trace w |}.

Definition set_heap (v : gmap Z Block) (n : PVOID) (w : World) : World :=
  {| w_tokens := w_tokens w; w_process_token := w_process_token w;
     w_lsass_token := w_lsass_token w; w_services := w_services w;
     w_expand := w_expand w; w_handles := w_handles w;
     w_next_handle := w_next_handle w; w_thread := w_thread w;
     w_heap := v; w_next_block := n;
     w_processes := w_processes w; w_trace := w_trace w |}.

Definition set_processes (v : list Process) (w : World) : World :=
  {| w_tokens := w_tokens w; w_process_token := w_process_token w;
     w_lsass_token := w_lsass_token w; w_services := w_services w;
     w_expand := w_expand w; w_handles := w_handles w;
     w_next_handle := w_next_handle w; w_thread := w_thread w;
     w_heap := w_heap w; w_next_block := w_next_block w;
     w_processes := v; w_trace := w_trace w |}.

Definition log (e : Event) (w : World) : World :=
  {| w_tokens := w_tokens w; w_process_token := w_process_token w;
     w_lsass_token := w_lsass_token w; w_services := w_services w;
     w_expand := w_expand w; w_handles := w_handles w;
     w_next_handle := w_next_handle w; w_thread := w_thread w;
     w_heap := w_heap w; w_next_block := w_next_block w;
     w_processes := w_processes w; w_trace := w_trace w ++ [e] |}.

(** The result of a call into the platform layer: the out-parameters on
    success, the failure status otherwise. *)
Inductive Outcome (A : Type) :=
| Ok (a : A)
| Failed (hr : HRESULT).
Arguments Ok {A} a.
Arguments Failed {A} hr.

Definition Api (A : Type) : Type := World -> Outcome A * World.

(** ** The platform layer *)

(** Modelled from the spec: the token/process primitive layer of
    Mile.Windows.h (open-own-token, open-process-token, duplicate-token,
    enable-privileges, set-session-id, set-integrity-label, get/set thread
    impersonation token, create-process-as-user, set-priority-class,
    resume-thread, close-handle, the environment-block builder and the
    string-expansion utility) is consumed by the pipeline as an external
    collaborator and is not part of the sources.  Each primitive is given
    its documented effect on the [World]; a primitive that fails returns
    its status and leaves the world and its out-parameters untouched. *)
Module Mile.

(** Modelled from the spec: the token object a handle of the calling
    process names, if it names one. *)
Definition token_of_handle (w : World) (h : HANDLE) : option nat :=
  match w_handles w !! h with
  | Some (KToken id) => Some id
  | _ => None
  end.

(** Modelled from the spec: the same, with the attributes of the token. *)
Definition token_at (w : World) (h : HANDLE) : option (nat * Token) :=
  match token_of_handle w h with
  | Some id =>
      match w_tokens w !! id with
      | Some t => Some (id, t)
      | None => None
      end
  | None => None
  end.

(** Modelled from the spec: each acquisition produces a new,
    independently owned handle; handle values are never reused. *)
Definition open_handle (o : KObject) (w : World) : HANDLE * World :=
  let h := w_next_handle w in
  (h, log (Opened h o) (set_handles (<[h := o]> (w_handles w)) (h + 4) w)).

(** Modelled from the spec: a mutation of a token object, seen through
    every handle that names it. *)
Definition update_token (id : nat) (f : Token -> Token) (w : World) : World :=
  set_tokens (alter f id (w_tokens w)) w.

Definition with_privileges (f : LUID_AND_ATTRIBUTES -> LUID_AND_ATTRIBUTES)
    (t : Token) : Token :=
  {| tk_type := tk_type t; tk_level := tk_level t;
     tk_session := tk_session t; tk_label := tk_label t;
     tk_privileges := map f (tk_privileges t) |}.

Definition with_session (s : DWORD) (t : Token) : Token :=
  {| tk_type := tk_type t; tk_level := tk_level t;
     tk_session := s; tk_label := tk_label t;
     tk_privileges := tk_privileges t |}.

Definition with_label (l : DWORD) (t : Token) : Token :=
  {| tk_type := tk_type t; tk_level := tk_level t;
     tk_session := tk_session t; tk_label := l;
     tk_privileges := tk_privileges t |}.

(** Modelled from the spec: open-own-token: a new handle to the token object
    of the calling process. *)
Definition MileOpenCurrentProcessToken (DesiredAccess : DWORD) : Api HANDLE :=
  fun w =>
    let '(h, w') := open_handle (KToken (w_process_token w)) w in
    (Ok h, w').

(** Modelled from the spec: open-process-token of the always-resident
    privileged process: a new handle to its token object. *)
Definition MileOpenLsassProcessToken (DesiredAccess : DWORD) : Api HANDLE :=
  fun w =>
    let '(h, w') := open_handle (KToken (w_lsass_token w)) w in
    (Ok h, w').

(** Modelled from the spec: open-process-token-by-name: a new handle to the
    token object of the named service, or a failure when no such service
    runs. *)
Definition MileOpenServiceProcessToken (ServiceName : string)
    (DesiredAccess : DWORD) : Api HANDLE :=
  fun w =>
    match find (fun e => String.eqb (fst e) ServiceName) (w_services w) with
    | Some (_, id) =>
        let '(h, w') := open_handle (KToken id) w in
        (Ok h, w')
    | None => (Failed E_SERVICE_DOES_NOT_EXIST, w)
    end.

(** Modelled from the spec: get-thread-impersonation-token: a new handle to
    the token object the calling thread impersonates, or a failure when it
    impersonates nobody. *)
Definition MileOpenCurrentThreadToken (DesiredAccess : DWORD)
    (OpenAsSelf : bool) : Api HANDLE :=
  fun w =>
    match w_thread w with
    | Some id =>
        let '(h, w') := open_handle (KToken id) w in
        (Ok h, w')
    | None => (Failed E_NO_TOKEN, w)
    end.

(** Modelled from the spec: duplicate-token: the duplicate is a new token
    object of the requested type and impersonation level, which inherits
    session, label and privileges. *)
Definition MileDuplicateToken (ExistingTokenHandle : HANDLE)
    (DesiredAccess : DWORD) (ImpersonationLevel : SECURITY_IMPERSONATION_LEVEL)
    (TokenType : TOKEN_TYPE) : Api HANDLE :=
  fun w =>
    match token_at w ExistingTokenHandle with
    | Some (_, t) =>
        let id' := length (w_tokens w) in
        let t' := {| tk_type := TokenType; tk_level := ImpersonationLevel;
                     tk_session := tk_session t; tk_label := tk_label t;
                     tk_privileges := tk_privileges t |} in
        let '(h, w') := open_handle (KToken id')
                          (set_tokens (w_tokens w ++ [t']) w) in
        (Ok h, w')
    | None => (Failed E_HANDLE, w)
    end.

(** Modelled from the spec: the identifier of a named privilege; only the
    one name the pipeline asks for is known. *)
Definition MileGetPrivilegeValue (Name : string) : Api LUID :=
  fun w =>
    if String.eqb Name SE_DEBUG_NAME then (Ok SE_DEBUG_PRIVILEGE, w)
    else (Failed E_NO_SUCH_PRIVILEGE, w).

(** Modelled from the spec: the new attributes of one privilege of a
    token. *)
Definition adjust (Privileges : list LUID_AND_ATTRIBUTES)
    (p : LUID_AND_ATTRIBUTES) : LUID_AND_ATTRIBUTES :=
  match find (fun q => Luid q =? Luid p) Privileges with
  | Some q => {| Luid := Luid p; Attributes := Attributes q |}
  | None => p
  end.

(** Modelled from the spec: enable-privilege(s): the attributes of the
    listed privileges the token holds are replaced. *)
Definition MileAdjustTokenPrivilegesSimple (TokenHandle : HANDLE)
    (Privileges : list LUID_AND_ATTRIBUTES) : Api unit :=
  fun w =>
    match token_of_handle w TokenHandle with
    | Some id => (Ok tt, update_token id (with_privileges (adjust Privileges)) w)
    | None => (Failed E_HANDLE, w)
    end.

(** Modelled from the spec: enable-privileges: every privilege the token
    holds gets the given attributes. *)
Definition MileAdjustTokenAllPrivileges (TokenHandle : HANDLE)
    (Attrs : DWORD) : Api unit :=
  fun w =>
    match token_of_handle w TokenHandle with
    | Some id =>
        (Ok tt,
         update_token id
           (with_privileges (fun p => {| Luid := Luid p; Attributes := Attrs |})) w)
    | None => (Failed E_HANDLE, w)
    end.

(** Modelled from the spec: set-thread-impersonation-token: a null handle
    reverts the thread to its own identity; any other handle must name an
    impersonation token. *)
Definition MileSetCurrentThreadToken (TokenHandle : HANDLE) : Api unit :=
  fun w =>
    if TokenHandle =? nullptr then
      (Ok tt, log (ThreadTokenSet TokenHandle) (set_thread None w))
    else
      match token_at w TokenHandle with
      | Some (id, t) =>
          match tk_type t with
          | TokenImpersonation =>
              (Ok tt, log (ThreadTokenSet TokenHandle) (set_thread (Some id) w))
          | TokenPrimary => (Failed E_BAD_TOKEN_TYPE, w)
          end
      | None => (Failed E_HANDLE, w)
      end.

(** Modelled from the spec: the session identifier of a token, and the
    length of the answer. *)
Definition MileGetTokenInformation (TokenHandle : HANDLE)
    (Class : TOKEN_INFORMATION_CLASS) : Api (DWORD * DWORD) :=
  fun w =>
    match token_at w TokenHandle with
    | Some (_, t) =>
        match Class with
        | TokenSessionId => (Ok (tk_session t, 4), w)
        end
    | None => (Failed E_HANDLE, w)
    end.

(** Modelled from the spec: set-session-id: the session identifier of the
    token object is overwritten. *)
Definition MileSetTokenInformation (TokenHandle : HANDLE)
    (Class : TOKEN_INFORMATION_CLASS) (Value : DWORD) : Api unit :=
  fun w =>
    match token_of_handle w TokenHandle with
    | Some id =>
        match Class with
        | TokenSessionId =>
            (Ok tt,
             log (SessionSet TokenHandle Value)
               (update_token id (with_session Value) w))
        end
    | None => (Failed E_HANDLE, w)
    end.

(** Modelled from the spec: set-integrity-label: the mandatory label of the
    token object is overwritten. *)
Definition MileSetTokenMandatoryLabel (TokenHandle : HANDLE)
    (MandatoryLabelRid : DWORD) : Api unit :=
  fun w =>
    match token_of_handle w TokenHandle with
    | Some id => (Ok tt, update_token id (with_label MandatoryLabelRid) w)
    | None => (Failed E_HANDLE, w)
    end.

(** Modelled from the spec: a new block, at an address never handed out
    before. *)
Definition allocate (b : Block) (w : World) : PVOID * World :=
  let p := w_next_block w in
  (p, set_heap (<[p := b]> (w_heap w)) (p + 16) w).

(** Modelled from the spec: the environment-block builder: a new block
    scoped to the given token. *)
Definition MileCreateEnvironmentBlock (TokenHandle : HANDLE)
    (Inherit : bool) : Api PVOID :=
  fun w =>
    match token_of_handle w TokenHandle with
    | Some id =>
        let '(p, w') := allocate (EnvironmentBlock id) w in
        (Ok p, log (EnvironmentCreated p) w')
    | None => (Failed E_HANDLE, w)
    end.

(** Modelled from the spec: the string-expansion utility: a new buffer
    holding the source expanded against the environment of the calling
    process, [w_expand]. *)
Definition MileExpandEnvironmentStringsWithMemory (Source : LPCWSTR)
    : Api PVOID :=
  fun w =>
    let '(p, w') := allocate (StringBuffer (w_expand w Source)) w in
    (Ok p, log (Allocated p) w').

(** Modelled from the spec: create-process-as-user: a new process under a
    primary token, with the session and label of that token, at the normal
    priority class, suspended when the flags ask for it; two new handles, to
    the process and to its primary thread. *)
Definition MileCreateProcessAsUser (TokenHandle : HANDLE)
    (lpCommandLine : PVOID) (dwCreationFlags : DWORD)
    (lpEnvironment : PVOID) (lpCurrentDirectory : option LPCWSTR)
    (lpStartupInfo : STARTUPINFOW) : Api PROCESS_INFORMATION :=
  fun w =>
    match token_at w TokenHandle with
    | Some (_, t) =>
        match tk_type t, w_heap w !! lpCommandLine with
        | TokenPrimary, Some (StringBuffer text) =>
            let pid := length (w_processes w) in
            let p := {| p_session := tk_session t;
                        p_label := tk_label t;
                        p_command_line := text;
                        p_directory := lpCurrentDirectory;
                        p_desktop := lpDesktop lpStartupInfo;
                        p_environment :=
                          match w_heap w !! lpEnvironment with
                          | Some (EnvironmentBlock id) => Some id
                          | _ => None
                          end;
                        p_creation_flags := dwCreationFlags;
                        p_priority := NORMAL_PRIORITY_CLASS;
                        p_suspended :=
                          negb (Z.land dwCreationFlags CREATE_SUSPENDED =? 0) |} in
            let w1 := log (ProcessCreated pid)
                        (set_processes (w_processes w ++ [p]) w) in
            let '(hp, w2) := open_handle (KProcess pid) w1 in
            let '(ht, w3) := open_handle (KThread pid) w2 in
            (Ok {| hProcess := hp; hThread := ht |}, w3)
        | TokenImpersonation, _ => (Failed E_BAD_TOKEN_TYPE, w)
        | TokenPrimary, _ => (Failed E_INVALIDARG, w)
        end
    | None => (Failed E_HANDLE, w)
    end.

Definition with_priority (c : DWORD) (p : Process) : Process :=
  {| p_session := p_session p; p_label := p_label p;
     p_command_line := p_command_line p; p_directory := p_directory p;
     p_desktop := p_desktop p; p_environment := p_environment p;
     p_creation_flags := p_creation_flags p;
     p_priority := c; p_suspended := p_suspended p |}.

Definition running (p : Process) : Process :=
  {| p_session := p_session p; p_label := p_label p;
     p_command_line := p_command_line p; p_directory := p_directory p;
     p_desktop := p_desktop p; p_environment := p_environment p;
     p_creation_flags := p_creation_flags p;
     p_priority := p_priority p; p_suspended := false |}.

(** Modelled from the spec: set-priority-class on a process handle.  Every
    call is logged with the handle it is given, before it takes effect, so
    that a call on a handle that names no process shows in the trace. *)
Definition MileSetPriorityClass (ProcessHandle : HANDLE)
    (PriorityClass : DWORD) : Api unit :=
  fun w =>
    let w := log (PriorityCall ProcessHandle PriorityClass) w in
    match w_handles w !! ProcessHandle with
    | Some (KProcess pid) =>
        (Ok tt,
         log (PrioritySet pid PriorityClass)
           (set_processes (alter (with_priority PriorityClass) pid (w_processes w)) w))
    | _ => (Failed E_HANDLE, w)
    end.

(** Modelled from the spec: resume-thread on the handle of the primary
    thread of a process.  Every call is logged with the handle it is
    given, before it takes effect. *)
Definition MileResumeThread (ThreadHandle : HANDLE) : Api unit :=
  fun w =>
    let w := log (ResumeCall ThreadHandle) w in
    match w_handles w !! ThreadHandle with
    | Some (KThread pid) =>
        (Ok tt,
         log (Resumed pid)
           (set_processes (alter running pid (w_processes w)) w))
    | _ => (Failed E_HANDLE, w)
    end.

(** Modelled from the spec: a wait on a handle; it has no effect on the
    objects of the model.  Every call is logged. *)
Definition MileWaitForSingleObject (Handle : HANDLE) (Milliseconds : DWORD)
    (Alertable : bool) : Api unit :=
  fun w =>
    match w_handles w !! Handle with
    | Some _ => (Ok tt, log (Waited Handle) w)
    | None => (Failed E_HANDLE, log (Waited Handle) w)
    end.

(** Modelled from the spec: close-handle: the handle leaves the handle
    table.  Every call is logged, so that a second close of the same handle
    shows in the trace. *)
Definition MileCloseHandle (Object : HANDLE) : Api unit :=
  fun w =>
    match w_handles w !! Object with
    | Some _ =>
        (Ok tt,
         log (Closed Object)
           (set_handles (delete Object (w_handles w)) (w_next_handle w) w))
    | None => (Failed E_HANDLE, log (Closed Object) w)
    end.

(** Modelled from the spec: release of a buffer obtained from the string-
    expansion utility. *)
Definition MileFreeMemory (Block : PVOID) : Api unit :=
  fun w =>
    (Ok tt,
     log (Freed Block) (set_heap (delete Block (w_heap w)) (w_next_block w) w)).

(** Modelled from the spec: the environment-block destroyer. *)
Definition MileDestroyEnvironmentBlock (Environment : PVOID) : Api unit :=
  fun w =>
    (Ok tt,
     log (EnvironmentDestroyed Environment)
       (set_heap (delete Environment (w_heap w)) (w_next_block w) w)).

End Mile.

(** ** Mile::ScopeExitEventHandler *)

Record ScopeExitEventHandler (EventHandlerType : Type) := {
  m_Canceled : bool;
  m_EventHandler : EventHandlerType
}.
Arguments m_Canceled {EventHandlerType} _.
Arguments m_EventHandler {EventHandlerType} _.

Module ScopeExit.

(** The constructor: the guard starts armed. *)
Definition create {H : Type} (EventHandler : H) : ScopeExitEventHandler H :=
  {| m_Canceled := false; m_EventHandler := EventHandler |}.

Definition Cancel {H : Type} (g : ScopeExitEventHandler H)
    : ScopeExitEventHandler H :=
  {| m_Canceled := true; m_EventHandler := m_EventHandler g |}.

(** The destructor: the handler runs on the state the scope is left in,
    unless the guard was cancelled. *)
Definition destroy {S : Type} (g : ScopeExitEventHandler (S -> S)) (st : S) : S :=
  if negb (m_Canceled g) then m_EventHandler g st else st.

End ScopeExit.

(** ** The locals of NSudoCreateProcess and its control flow *)

(** The variables declared before the guard, which its lambda captures by
    reference. *)
Record Frame := {
  SessionID : DWORD;
  CurrentProcessToken : HANDLE;
  DuplicatedCurrentProcessToken : HANDLE;
  OriginalLsassProcessToken : HANDLE;
  SystemToken : HANDLE;
  hToken : HANDLE;
  OriginalToken : HANDLE
}.

Definition set_SessionID (v : DWORD) (f : Frame) : Frame :=
  {| SessionID := v;
     CurrentProcessToken := CurrentProcessToken f;
     DuplicatedCurrentProcessToken := DuplicatedCurrentProcessToken f;
     OriginalLsassProcessToken := OriginalLsassProcessToken f;
     SystemToken := SystemToken f; hToken := hToken f;
     OriginalToken := OriginalToken f |}.

Definition set_CurrentProcessToken (v : HANDLE) (f : Frame) : Frame :=
  {| SessionID := SessionID f;
     CurrentProcessToken := v;
     DuplicatedCurrentProcessToken := DuplicatedCurrentProcessToken f;
     OriginalLsassProcessToken := OriginalLsassProcessToken f;
     SystemToken := SystemToken f; hToken := hToken f;
     OriginalToken := OriginalToken f |}.

Definition set_DuplicatedCurrentProcessToken (v : HANDLE) (f : Frame) : Frame :=
  {| SessionID := SessionID f;
     CurrentProcessToken := CurrentProcessToken f;
     DuplicatedCurrentProcessToken := v;
     OriginalLsassProcessToken := OriginalLsassProcessToken f;
     SystemToken := SystemToken f; hToken := hToken f;
     OriginalToken := OriginalToken f |}.

Definition set_OriginalLsassProcessToken (v : HANDLE) (f : Frame) : Frame :=
  {| SessionID := SessionID f;
     CurrentProcessToken := CurrentProcessToken f;
     DuplicatedCurrentProcessToken := DuplicatedCurrentProcessToken f;
     OriginalLsassProcessToken := v;
     SystemToken := SystemToken f; hToken := hToken f;
     OriginalToken := OriginalToken f |}.

Definition set_SystemToken (v : HANDLE) (f : Frame) : Frame :=
  {| SessionID := SessionID f;
     CurrentProcessToken := CurrentProcessToken f;
     DuplicatedCurrentProcessToken := DuplicatedCurrentProcessToken f;
     OriginalLsassProcessToken := OriginalLsassProcessToken f;
     SystemToken := v; hToken := hToken f;
     OriginalToken := OriginalToken f |}.

Definition set_hToken (v : HANDLE) (f : Frame) : Frame :=
  {| SessionID := SessionID f;
     CurrentProcessToken := CurrentProcessToken f;
     DuplicatedCurrentProcessToken := DuplicatedCurrentProcessToken f;
     OriginalLsassProcessToken := OriginalLsassProcessToken f;
     SystemToken := SystemToken f; hToken := v;
     OriginalToken := OriginalToken f |}.

Definition set_OriginalToken (v : HANDLE) (f : Frame) : Frame :=
  {| SessionID := SessionID f;
     CurrentProcessToken := CurrentProcessToken f;
     DuplicatedCurrentProcessToken := DuplicatedCurrentProcessToken f;
     OriginalLsassProcessToken := OriginalLsassProcessToken f;
     SystemToken := SystemToken f; hToken := hToken f;
     OriginalToken := v |}.

(** [DWORD SessionID = static_cast<DWORD>(-1)] and six invalid handles. *)
Definition entry_frame : Frame :=
  {| SessionID := 2 ^ 32 - 1;
     CurrentProcessToken := INVALID_HANDLE_VALUE;
     DuplicatedCurrentProcessToken := INVALID_HANDLE_VALUE;
     OriginalLsassProcessToken := INVALID_HANDLE_VALUE;
     SystemToken := INVALID_HANDLE_VALUE;
     hToken := INVALID_HANDLE_VALUE;
     OriginalToken := INVALID_HANDLE_VALUE |}.

Definition State : Type := Frame * World.

(** A statement either falls through with a value or executes [return]. *)
Inductive Flow (A : Type) :=
| Next (a : A)
| Returned (hr : HRESULT).
Arguments Next {A} a.
Arguments Returned {A} hr.

Definition M (A : Type) : Type := State -> Flow A * State.

#[global] Instance M_ret : MRet M := fun A a st => (Next a, st).

#[global] Instance M_bind : MBind M := fun A B k m st =>
  match m st with
  | (Next a, st') => k a st'
  | (Returned hr, st') => (Returned hr, st')
  end.

Definition Return {A : Type} (hr : HRESULT) : M A := fun st => (Returned hr, st).

(** [if (hr != S_OK) { return hr; }] *)
Definition check (hr : HRESULT) : M unit :=
  if negb (is_S_OK hr) then Return hr else mret tt.

(** A call whose status is discarded. *)
Definition ignore {A : Type} (api : Frame -> Api A) : M unit :=
  fun '(f, w) => (Next tt, (f, snd (api f w))).

Section Pipeline.

(** The fault plan: the status the platform reports at each inspected
    call site; [S_OK] lets the call through to its primitive. *)
Variable fault : Stage -> HRESULT.

(** A call at site [s] whose status is inspected.  [current] is the value
    the out-parameter holds before the call; it is what the variable
    still holds when the call fails. *)
Definition invoke {A : Type} (s : Stage) (api : Frame -> Api A) (current : A)
    : M (HRESULT * A) :=
  fun '(f, w) =>
    if is_S_OK (fault s) then
      match api f w with
      | (Ok a, w') => (Next (S_OK, a), (f, log (Called s S_OK) w'))
      | (Failed e, w') => (Next (e, current), (f, log (Called s e) w'))
      end
    else (Next (fault s, current), (f, log (Called s (fault s)) w)).

(** The same, for an out-parameter that is one of the captured locals. *)
Definition invoke_into {A : Type} (s : Stage) (api : Frame -> Api A)
    (store : A -> Frame -> Frame) : M HRESULT :=
  fun '(f, w) =>
    if is_S_OK (fault s) then
      match api f w with
      | (Ok a, w') => (Next S_OK, (store a f, log (Called s S_OK) w'))
      | (Failed e, w') => (Next e, (f, log (Called s e) w'))
      end
    else (Next (fault s), (f, log (Called s (fault s)) w)).

(** The lambda handed to the guard. *)
Definition close_if_valid (var : Frame -> HANDLE) : M unit :=
  fun '(f, w) =>
    if negb (var f =? INVALID_HANDLE_VALUE)
    then ignore (fun f => Mile.MileCloseHandle (var f)) (f, w)
    else (Next tt, (f, w)).

Definition Handler_lambda : M unit :=
  close_if_valid CurrentProcessToken;;
  close_if_valid DuplicatedCurrentProcessToken;;
  close_if_valid OriginalLsassProcessToken;;
  close_if_valid SystemToken;;
  close_if_valid hToken;;
  close_if_valid OriginalToken;;
  ignore (fun _ => Mile.MileSetCurrentThreadToken nullptr).

Definition Handler : ScopeExitEventHandler (State -> State) :=
  ScopeExit.create (fun st => snd (Handler_lambda st)).

(** The statements of the function between the construction of the guard
    and the closing brace. *)
Definition NSudoCreateProcess_body (CommandLine : LPCWSTR)
    (CurrentDirectory : option LPCWSTR) : M Empty_set :=
  let MandatoryLabelRid := SECURITY_MANDATORY_SYSTEM_RID in
  let ProcessPriority := ABOVE_NORMAL_PRIORITY_CLASS in
  let ShowWindowMode := SW_SHOWDEFAULT in
  hr ← invoke_into S_OpenCurrentProcessToken
         (fun _ => Mile.MileOpenCurrentProcessToken MAXIMUM_ALLOWED)
         set_CurrentProcessToken;
  check hr;;
  hr ← invoke_into S_DuplicateCurrentProcessToken
         (fun f => Mile.MileDuplicateToken (CurrentProcessToken f)
                     MAXIMUM_ALLOWED SecurityImpersonation TokenImpersonation)
         set_DuplicatedCurrentProcessToken;
  check hr;;
  (* RawPrivilege is declared without an initialiser; it is read only
     after the call that fills it has succeeded. *)
  '(hr, RawPrivilege_Luid) ← invoke S_GetPrivilegeValue
         (fun _ => Mile.MileGetPrivilegeValue SE_DEBUG_NAME) 0;
  check hr;;
  let RawPrivilege :=
    {| Luid := RawPrivilege_Luid; Attributes := SE_PRIVILEGE_ENABLED |} in
  '(hr, _) ← invoke S_AdjustTokenPrivilegesSimple
         (fun f => Mile.MileAdjustTokenPrivilegesSimple
                     (DuplicatedCurrentProcessToken f) [RawPrivilege]) tt;
  check hr;;
  '(hr, _) ← invoke S_SetThreadTokenDuplicated
         (fun f => Mile.MileSetCurrentThreadToken
                     (DuplicatedCurrentProcessToken f)) tt;
  check hr;;
  hr ← invoke_into S_OpenCurrentThreadToken
         (fun _ => Mile.MileOpenCurrentThreadToken MAXIMUM_ALLOWED false)
         set_CurrentProcessToken;
  check hr;;
  hr ← invoke_into S_GetTokenInformation
         (fun f => Mile.MileGetTokenInformation
                     (CurrentProcessToken f) TokenSessionId)
         (fun out => set_SessionID (fst out));
  check hr;;
  hr ← invoke_into S_OpenLsassProcessToken
         (fun _ => Mile.MileOpenLsassProcessToken MAXIMUM_ALLOWED)
         set_OriginalLsassProcessToken;
  check hr;;
  hr ← invoke_into S_DuplicateLsassToken
         (fun f => Mile.MileDuplicateToken (OriginalLsassProcessToken f)
                     MAXIMUM_ALLOWED SecurityImpersonation TokenImpersonation)
         set_SystemToken;
  check hr;;
  '(hr, _) ← invoke S_AdjustSystemTokenPrivileges
         (fun f => Mile.MileAdjustTokenAllPrivileges
                     (SystemToken f) SE_PRIVILEGE_ENABLED) tt;
  check hr;;
  '(hr, _) ← invoke S_SetThreadTokenSystem
         (fun f => Mile.MileSetCurrentThreadToken (SystemToken f)) tt;
  check hr;;
  hr ← invoke_into S_OpenServiceProcessToken
         (fun _ => Mile.MileOpenServiceProcessToken
                     "TrustedInstaller" MAXIMUM_ALLOWED)
         set_OriginalToken;
  check hr;;
  hr ← invoke_into S_DuplicateServiceToken
         (fun f => Mile.MileDuplicateToken (OriginalToken f)
                     MAXIMUM_ALLOWED SecurityIdentification TokenPrimary)
         set_hToken;
  check hr;;
  '(hr, _) ← invoke S_SetTokenInformation
         (fun f => Mile.MileSetTokenInformation
                     (hToken f) TokenSessionId (SessionID f)) tt;
  check hr;;
  '(hr, _) ← invoke S_AdjustTokenAllPrivileges
         (fun f => Mile.MileAdjustTokenAllPrivileges
                     (hToken f) SE_PRIVILEGE_ENABLED) tt;
  check hr;;
  '(hr, _) ← invoke S_SetTokenMandatoryLabel
         (fun f => Mile.MileSetTokenMandatoryLabel
                     (hToken f) MandatoryLabelRid) tt;
  check hr;;
  let dwCreationFlags :=
    Z.lor (Z.lor CREATE_SUSPENDED CREATE_UNICODE_ENVIRONMENT)
      CREATE_NEW_CONSOLE in
  let StartupInfo :=
    {| lpDesktop := "WinSta0\Default";
       dwFlags := Z.lor 0 STARTF_USESHOWWINDOW;
       wShowWindow := ShowWindowMode mod 2 ^ 16 |} in
  let ProcessInfo := {| hProcess := 0; hThread := 0 |} in
  '(hr, lpEnvironment) ← invoke S_CreateEnvironmentBlock
         (fun f => Mile.MileCreateEnvironmentBlock (hToken f) true) nullptr;
  (if is_S_OK hr then
     '(hr, ExpandedString) ← invoke S_ExpandEnvironmentStrings
            (fun _ => Mile.MileExpandEnvironmentStringsWithMemory CommandLine)
            nullptr;
     (if is_S_OK hr then
        '(hr, ProcessInfo) ← invoke S_CreateProcessAsUser
               (fun f => Mile.MileCreateProcessAsUser (hToken f)
                           ExpandedString dwCreationFlags lpEnvironment
                           CurrentDirectory StartupInfo)
               ProcessInfo;
        (if is_S_OK hr then
           ignore (fun _ => Mile.MileSetPriorityClass
                              (hProcess ProcessInfo) ProcessPriority);;
           ignore (fun _ => Mile.MileResumeThread (hThread ProcessInfo));;
           ignore (fun _ => Mile.MileWaitForSingleObject
                              (hProcess ProcessInfo) 0 false);;
           ignore (fun _ => Mile.MileCloseHandle (hProcess ProcessInfo));;
           ignore (fun _ => Mile.MileCloseHandle (hThread ProcessInfo))
         else mret tt);;
        ignore (fun _ => Mile.MileFreeMemory ExpandedString)
      else mret tt);;
     ignore (fun _ => Mile.MileDestroyEnvironmentBlock lpEnvironment)
   else mret tt);;
  Return S_OK.

(** The function: the guard is constructed, the body runs to one of its
    [return] statements, the returned value is fixed, and the guard is
    destroyed on the way out. *)
Definition NSudoCreateProcess_frame (CommandLine : LPCWSTR)
    (CurrentDirectory : option LPCWSTR) (w : World) : HRESULT * State :=
  match NSudoCreateProcess_body CommandLine CurrentDirectory (entry_frame, w) with
  | (Returned hr, st) => (hr, st)
  | (Next e, _) => match e with end
  end.

Definition NSudoCreateProcess (CommandLine : LPCWSTR)
    (CurrentDirectory : option LPCWSTR) (w : World) : HRESULT * World :=
  let '(hr, st) := NSudoCreateProcess_frame CommandLine CurrentDirectory w in
  (hr, snd (ScopeExit.destroy Handler st)).

End Pipeline.

(** ** The world the pipeline is started in *)

(** Modelled from the spec: three token objects exist, the caller's
    process token, the token of the always-resident privileged process and
    the token of the named service.  The calling process holds no handle
    and no block yet, and its thread impersonates nobody. *)
Definition boot (caller lsass service : Token) (expand : string -> string)
    : World :=
  {| w_tokens := [caller; lsass; service];
     w_process_token := 0%nat;
     w_lsass_token := 1%nat;
     w_services := [("TrustedInstaller"%string, 2%nat)];
     w_expand := expand;
     w_handles := ∅;
     w_next_handle := 4;
     w_thread := None;
     w_heap := ∅;
     w_next_block := 0x1000;
     w_processes := [];
     w_trace := [] |}.

(** A fault plan with a single failing site. *)
Definition fail_at (k : Stage) (hr : HRESULT) : Stage -> HRESULT :=
  fun s => if decide (s = k) then hr else S_OK.

Definition no_fault : Stage -> HRESULT := fun _ => S_OK.

(** The first site, in program order, at which the plan reports a failure. *)
Definition first_failure (fault : Stage -> HRESULT) : option Stage :=
  find (fun s => negb (is_S_OK (fault s))) stage_order.

Definition stage_index (s : Stage) : nat :=
  match s with
  | S_OpenCurrentProcessToken => 0
  | S_DuplicateCurrentProcessToken => 1
  | S_GetPrivilegeValue => 2
  | S_AdjustTokenPrivilegesSimple => 3
  | S_SetThreadTokenDuplicated => 4
  | S_OpenCurrentThreadToken => 5
  | S_GetTokenInformation => 6
  | S_OpenLsassProcessToken => 7
  | S_DuplicateLsassToken => 8
  | S_AdjustSystemTokenPrivileges => 9
  | S_SetThreadTokenSystem => 10
  | S_OpenServiceProcessToken => 11
  | S_DuplicateServiceToken => 12
  | S_SetTokenInformation => 13
  | S_AdjustTokenAllPrivileges => 14
  | S_SetTokenMandatoryLabel => 15
  | S_CreateEnvironmentBlock => 16
  | S_ExpandEnvironmentStrings => 17
  | S_CreateProcessAsUser => 18
  end%nat.

(** The plan given by a table of values, in program order. *)
Definition plan (values : list HRESULT) : Stage -> HRESULT :=
  fun s => default S_OK (values !! stage_index s).

(** The sixteen sites that end in [return hr]. *)
Definition token_stage (s : Stage) : bool :=
  match s with
  | S_CreateEnvironmentBlock | S_ExpandEnvironmentStrings
  | S_CreateProcessAsUser => false
  | _ => true
  end.

(** Site [s] was reached and reported [S_OK]. *)
Definition succeeded (fault : Stage -> HRESULT) (s : Stage) : bool :=
  match first_failure fault with
  | Some k => (stage_index s <? stage_index k)%nat
  | None => true
  end.

(** A run of the pipeline from the boot world, and the state it is in at
    its [return] statement, before the guard is destroyed. *)
Definition run (caller lsass service : Token) (expand : string -> string)
    (CommandLine : LPCWSTR) (CurrentDirectory : option LPCWSTR)
    (fault : Stage -> HRESULT) : HRESULT * World :=
  NSudoCreateProcess fault CommandLine CurrentDirectory
    (boot caller lsass service expand).

Definition run_frame (caller lsass service : Token) (expand : string -> string)
    (CommandLine : LPCWSTR) (CurrentDirectory : option LPCWSTR)
    (fault : Stage -> HRESULT) : HRESULT * State :=
  NSudoCreateProcess_frame fault CommandLine CurrentDirectory
    (boot caller lsass service expand).

(** ** Reading a trace *)

Definition calls (t : list Event) : list (Stage * HRESULT) :=
  omap (fun e => match e with Called s hr => Some (s, hr) | _ => None end) t.

Definition opened_handles (t : list Event) : list HANDLE :=
  omap (fun e => match e with Opened h _ => Some h | _ => None end) t.

Definition closed_handles (t : list Event) : list HANDLE :=
  omap (fun e => match e with Closed h => Some h | _ => None end) t.

Definition thread_tokens (t : list Event) : list HANDLE :=
  omap (fun e => match e with ThreadTokenSet h => Some h | _ => None end) t.

Definition sessions_set (t : list Event) : list DWORD :=
  omap (fun e => match e with SessionSet _ s => Some s | _ => None end) t.

Definition created_blocks (t : list Event) : list PVOID :=
  omap (fun e => match e with EnvironmentCreated p => Some p | _ => None end) t.

Definition destroyed_blocks (t : list Event) : list PVOID :=
  omap (fun e => match e with EnvironmentDestroyed p => Some p | _ => None end) t.

Definition allocated_buffers (t : list Event) : list PVOID :=
  omap (fun e => match e with Allocated p => Some p | _ => None end) t.

Definition freed_buffers (t : list Event) : list PVOID :=
  omap (fun e => match e with Freed p => Some p | _ => None end) t.

Definition priorities_set (t : list Event) : list (nat * DWORD) :=
  omap (fun e => match e with PrioritySet pid c => Some (pid, c) | _ => None end) t.

Definition resumes (t : list Event) : list nat :=
  omap (fun e => match e with Resumed pid => Some pid | _ => None end) t.

(** The calls of the launch primitives whose status is discarded, with the
    handle each was given, whether or not the handle names an object. *)
Definition priority_calls (t : list Event) : list (HANDLE * DWORD) :=
  omap (fun e => match e with PriorityCall h c => Some (h, c) | _ => None end) t.

Definition resume_calls (t : list Event) : list HANDLE :=
  omap (fun e => match e with ResumeCall h => Some h | _ => None end) t.

Definition waits (t : list Event) : list HANDLE :=
  omap (fun e => match e with Waited h => Some h | _ => None end) t.

(** Every resume of a process comes after its priority class was set to
    the above-normal class. *)
Definition priority_before_resume (t : list Event) : Prop :=
  forall pre post pid,
    t = pre ++ Resumed pid :: post ->
    PrioritySet pid ABOVE_NORMAL_PRIORITY_CLASS ∈ pre.

Fixpoint resumes_guarded (ready : list nat) (t : list Event) : bool :=
  match t with
  | [] => true
  | PrioritySet pid c :: t' =>
      resumes_guarded
        (if c =? ABOVE_NORMAL_PRIORITY_CLASS then pid :: ready else ready) t'
  | Resumed pid :: t' => bool_decide (pid ∈ ready) && resumes_guarded ready t'
  | _ :: t' => resumes_guarded ready t'
  end.

(** The handles the guard finds in the captured variables, in the order
    its lambda visits them. *)
Definition held_if (h : HANDLE) : list HANDLE :=
  if negb (h =? INVALID_HANDLE_VALUE) then [h] else [].

Definition held (f : Frame) : list HANDLE :=
  held_if (CurrentProcessToken f) ++
  held_if (DuplicatedCurrentProcessToken f) ++
  held_if (OriginalLsassProcessToken f) ++
  held_if (SystemToken f) ++
  held_if (hToken f) ++
  held_if (OriginalToken f).

(** ** A sample machine

    An interactive user in session 1 at medium integrity; the two service
    tokens live in session 0 at system integrity. *)
Definition user_token : Token :=
  {| tk_type := TokenPrimary; tk_level := SecurityAnonymous;
     tk_session := 1; tk_label := 0x2000;
     tk_privileges := [ {| Luid := SE_DEBUG_PRIVILEGE; Attributes := 0 |} ] |}.

Definition lsass_token : Token :=
  {| tk_type := TokenPrimary; tk_level := SecurityAnonymous;
     tk_session := 0; tk_label := SECURITY_MANDATORY_SYSTEM_RID;
     tk_privileges := [ {| Luid := 7; Attributes := 0 |};
                        {| Luid := SE_DEBUG_PRIVILEGE; Attributes := 2 |} ] |}.

Definition trusted_installer_token : Token :=
  {| tk_type := TokenPrimary; tk_level := SecurityAnonymous;
     tk_session := 0; tk_label := SECURITY_MANDATORY_SYSTEM_RID;
     tk_privileges := [ {| Luid := 9; Attributes := 0 |};
                        {| Luid := 18; Attributes := 0 |} ] |}.

Definition sample_run (fault : Stage -> HRESULT) : HRESULT * World :=
  run user_token lsass_token trusted_installer_token (fun s => s)
    "C:\Windows\System32\cmd.exe"%string None fault.

(** The same machine asked to start a program that does not exist: process
    creation is the call that fails. *)
Definition missing_program_run : HRESULT * World :=
  run user_token lsass_token trusted_installer_token (fun s => s)
    "C:\no\such\program.exe"%string None
    (fail_at S_CreateProcessAsUser E_FILE_NOT_FOUND).

(** ** NSudoMain and the resource manager *)

Definition NUL : ascii := Ascii.zero.

(** Length of the NUL-terminated string held in a buffer. *)
Fixpoint wcslen (s : string) : nat :=
  match s with
  | EmptyString => 0
  | String c s' => if Ascii.eqb c NUL then 0 else S (wcslen s')
  end%nat.

(** Index of the last occurrence of [c] before the terminator; [None] is
    the null pointer. *)
Fixpoint wcsrchr (s : string) (c : ascii) : option nat :=
  match s with
  | EmptyString => None
  | String a s' =>
      if Ascii.eqb a NUL then None
      else match wcsrchr s' c with
           | Some i => Some (S i)
           | None => if Ascii.eqb a c then Some 0%nat else None
           end
  end.

(** [s[i] = c] *)
Fixpoint poke (s : string) (i : nat) (c : ascii) : string :=
  match s, i with
  | EmptyString, _ => EmptyString
  | String _ s', O => String c s'
  | String a s', S i' => String a (poke s' i' c)
  end.

(** [std::wstring::resize]: truncate, or pad with NUL. *)
Fixpoint resize (s : string) (n : nat) : string :=
  match n, s with
  | O, _ => EmptyString
  | S n', EmptyString => String NUL (resize EmptyString n')
  | S n', String a s' => String a (resize s' n')
  end.

(** [std::wstring::c_str] as seen by a callee: the text up to the first
    NUL. *)
Definition c_str (s : string) : LPCWSTR := resize s (wcslen s).

Definition empty (s : string) : bool :=
  match s with
  | EmptyString => true
  | String _ _ => false
  end.

Record CNSudoResourceManagement := {
  m_IsInitialized : bool;
  m_Instance : Z;
  m_ExePath : string;
  m_AppPath : string
}.

Definition g_ResourceManagement : CNSudoResourceManagement :=
  {| m_IsInitialized := false; m_Instance := nullptr;
     m_ExePath := EmptyString; m_AppPath := EmptyString |}.

Section Main.

(** What the process was started with: the fault plan of the platform, the
    module handle, the path of the executable, the command line and the
    command-line splitter of the helper library. *)
Variable fault : Stage -> HRESULT.
Variable GetModuleHandleW : Z.
Variable M2GetCurrentProcessModulePath : string.
Variable GetCommandLineW : string.
Variable M2SpiltCommandLineEx : string -> string * string.

(** [CNSudoResourceManagement::Initialize].  [None]: the store through the
    null pointer [wcsrchr] returns for a path without a backslash. *)
Definition Initialize (this : CNSudoResourceManagement)
    : option CNSudoResourceManagement :=
  if negb (m_IsInitialized this) then
    let ExePath := M2GetCurrentProcessModulePath in
    let AppPath := ExePath in
    match wcsrchr AppPath "\"%char with
    | Some i =>
        let AppPath := poke AppPath i NUL in
        let AppPath := resize AppPath (wcslen AppPath) in
        Some {| m_IsInitialized := true; m_Instance := GetModuleHandleW;
                m_ExePath := ExePath; m_AppPath := AppPath |}
    | None => None
    end
  else Some this.

Definition NSudoMain (g : CNSudoResourceManagement) (w : World)
    : option (Z * CNSudoResourceManagement * World) :=
  let w := log ComInitialized w in
  match Initialize g with
  | None => None
  | Some g =>
      let '(ApplicationName, UnresolvedCommandLine) :=
        M2SpiltCommandLineEx GetCommandLineW in
      if empty UnresolvedCommandLine then Some (0, g, w)
      else if empty UnresolvedCommandLine then Some (-1, g, w)
      else
        let '(_, w) :=
          NSudoCreateProcess fault (c_str UnresolvedCommandLine)
            (Some (c_str (m_AppPath g))) w in
        Some (0, g, w)
  end.

Definition main (g : CNSudoResourceManagement) (w : World)
    : option (Z * CNSudoResourceManagement * World) :=
  NSudoMain g w.

End Main.

(** ** M2::CObject *)

(** The definer of a smart object: its invalid value and its release
    function, which acts on some state [W]. *)
Class TObjectDefiner (TObject W : Type) := {
  GetInvalidValue : TObject;
  Definer_Close : TObject -> W -> W
}.

(** [M2::CHandleDefiner] *)
#[global] Instance CHandleDefiner : TObjectDefiner HANDLE World := {|
  GetInvalidValue := INVALID_HANDLE_VALUE;
  Definer_Close := fun Object w => snd (Mile.MileCloseHandle Object w)
|}.

(** A definer that only records the objects it is asked to release. *)
Definition Recorder (TObject : Type) (invalid : TObject)
    : TObjectDefiner TObject (list TObject) :=
  {| GetInvalidValue := invalid;
     Definer_Close := fun Object released => released ++ [Object] |}.

Module CObject.
Section Methods.

Context {TObject W : Type} `{EqDecision TObject}.
Context (TDefiner : TObjectDefiner TObject W).

(** The object is its member [m_Object]; the state the release function
    acts on is threaded through every method. *)
Definition t : Type := (TObject * W)%type.

Definition create (Object : TObject) (w : W) : t := (Object, w).

Definition m_Object (this : t) : TObject := fst this.

Definition IsInvalid (this : t) : bool :=
  bool_decide (m_Object this = GetInvalidValue).

Definition Close (this : t) : t :=
  if negb (IsInvalid this)
  then (GetInvalidValue, Definer_Close (m_Object this) (snd this))
  else this.

(** [operator=]; the second component is the value returned. *)
Definition Assign (Object : TObject) (this : t) : t * TObject :=
  let this :=
    if bool_decide (Object <> m_Object this)
    then (Object, snd (Close this))
    else this in
  (this, m_Object this).

Definition Detach (this : t) : t * TObject :=
  let Object := m_Object this in
  ((GetInvalidValue, snd this), Object).

(** [operator&] hands out the address of [m_Object]: a callee stores a new
    value there and nothing is released. *)
Definition Store (Object : TObject) (this : t) : t := (Object, snd this).

(** The destructor. *)
Definition destroy (this : t) : W := snd (Close this).

(** What a client can do to a smart object. *)
Inductive Op :=
| OpClose
| OpAssign (Object : TObject)
| OpDetach
| OpStore (Object : TObject).

Definition step (this : t) (op : Op) : t :=
  match op with
  | OpClose => Close this
  | OpAssign Object => fst (Assign Object this)
  | OpDetach => fst (Detach this)
  | OpStore Object => Store Object this
  end.

Definition exec (ops : list Op) (this : t) : t := foldl step this ops.

(** The number of times a value is put into the object. *)
Definition acquisitions (ops : list Op) : nat :=
  length (omap (fun op => match op with
                          | OpAssign v | OpStore v => Some v
                          | _ => None
                          end) ops).

(** One if the object owns something, zero otherwise. *)
Definition owns (this : t) : nat := if IsInvalid this then 0%nat else 1%nat.

End Methods.
End CObject.

(** ** M2PathFindFileName *)

Definition MAX_PATH : nat := 260.

(** [L'\\' == *Path || L'/' == *Path] *)
Definition is_separator (c : ascii) : bool :=
  Ascii.eqb "\" c || Ascii.eqb "/" c.

(** The loop of [M2PathFindFileName], with [i] iterations left.  A pointer
    into the buffer is the text from that position on: [Path + 1] is the
    text after the first character of [Path]. *)
Fixpoint M2PathFindFileName_loop (i : nat) (Path FileName : string) : string :=
  match i with
  | O => FileName
  | S i' =>
      match Path with
      | EmptyString => FileName
      | String c rest =>
          if Ascii.eqb c NUL then FileName
          else
            M2PathFindFileName_loop i' rest
              (if is_separator c then rest else FileName)
      end
  end.

(** [None] is the null pointer: the loop is left at once and the null
    pointer is returned. *)
Definition M2PathFindFileName (Path : option string) : option string :=
  match Path with
  | None => None
  | Some p => Some (M2PathFindFileName_loop MAX_PATH p p)
  end.

(** No separator occurs in the text before its terminator. *)
Fixpoint separator_free (s : string) : bool :=
  match s with
  | EmptyString => true
  | String c rest =>
      if Ascii.eqb c NUL then true
      else negb (is_separator c) && separator_free rest
  end.

(** No NUL occurs in the text. *)
Fixpoint NUL_free (s : string) : bool :=
  match s with
  | EmptyString => true
  | String c rest => negb (Ascii.eqb c NUL) && NUL_free rest
  end.

(** ** M2LoadResource *)

Record M2_RESOURCE_INFO := {
  Size : DWORD;
  Pointer : PVOID
}.

(** What the resource functions of the platform answer for one module:
    null handles are 0, and the last-error code is the one left behind by
    the lookup or by the load when it fails. *)
Record ResourcePlatform := {
  FindResourceExW : Z -> LPCWSTR -> LPCWSTR -> Z -> Z;
  SizeofResource : Z -> Z -> DWORD;
  LoadResource : Z -> Z -> Z;
  LockResource : Z -> PVOID;
  GetLastError_after_find : DWORD;
  GetLastError_after_load : DWORD
}.

(** [HRESULT_FROM_WIN32] of winerror.h at an unsigned argument: the
    argument is read as a signed 32-bit value first. *)
Definition HRESULT_FROM_WIN32_DWORD (x : DWORD) : HRESULT :=
  let hr := if x <? 2 ^ 31 then x else x - 2 ^ 32 in
  if hr <=? 0 then hr
  else Z.lor (Z.lor (Z.land x 0xFFFF) (Z.shiftl 7 16)) 0x80000000 - 2 ^ 32.

(** [MAKELANGID(LANG_NEUTRAL, SUBLANG_NEUTRAL)] *)
Definition LANG_NEUTRAL_SUBLANG_NEUTRAL : Z := Z.lor (Z.shiftl 0 10) 0.

(** [lpResourceInfo] is [None] for the null pointer; the second component
    is what it points to when the function returns. *)
Definition M2LoadResource (P : ResourcePlatform)
    (lpResourceInfo : option M2_RESOURCE_INFO) (hModule : Z)
    (lpType lpName : LPCWSTR) : HRESULT * option M2_RESOURCE_INFO :=
  match lpResourceInfo with
  | None => (E_INVALIDARG, None)
  | Some _ =>
      let info := {| Size := 0; Pointer := nullptr |} in
      let ResourceFind :=
        FindResourceExW P hModule lpType lpName LANG_NEUTRAL_SUBLANG_NEUTRAL in
      if ResourceFind =? 0 then
        (HRESULT_FROM_WIN32_DWORD (GetLastError_after_find P), Some info)
      else
        let info := {| Size := SizeofResource P hModule ResourceFind;
                       Pointer := Pointer info |} in
        let ResourceLoad := LoadResource P hModule ResourceFind in
        if ResourceLoad =? 0 then
          (HRESULT_FROM_WIN32_DWORD (GetLastError_after_load P), Some info)
        else
          let info := {| Size := Size info;
                         Pointer := LockResource P ResourceLoad |} in
          (S_OK, Some info)
  end.

(** ** M2::CMemory *)

(** The C heap as the wrapper sees it: the blocks that are live, the
    address [malloc] hands out next, and the non-null pointers passed to
    [free] that were not live. *)
Record Heap := {
  h_live : gset Z;
  h_next : PVOID;
  h_bad_frees : list PVOID
}.

(** [malloc]: [ok] tells whether the allocation succeeds; a failed
    allocation returns the null pointer. *)
Definition malloc (ok : bool) (Size : Z) (h : Heap) : PVOID * Heap :=
  if ok then
    (h_next h,
     {| h_live := {[ h_next h ]} ∪ h_live h; h_next := h_next h + 16;
        h_bad_frees := h_bad_frees h |})
  else (nullptr, h).

(** [free]: a null pointer is ignored. *)
Definition free (p : PVOID) (h : Heap) : Heap :=
  if p =? nullptr then h
  else if decide (p ∈ h_live h) then
    {| h_live := h_live h ∖ {[ p ]}; h_next := h_next h;
       h_bad_frees := h_bad_frees h |}
  else
    {| h_live := h_live h; h_next := h_next h;
       h_bad_frees := h_bad_frees h ++ [p] |}.

(** Every live block lies below the next address, which is not null. *)
Definition heap_ok (h : Heap) : Prop :=
  0 < h_next h /\ forall p, p ∈ h_live h -> 0 < p < h_next h.

(** [M2::CMemoryDefiner] *)
#[global] Instance CMemoryDefiner : TObjectDefiner PVOID Heap := {|
  GetInvalidValue := nullptr;
  Definer_Close := free
|}.

Module CMemory.

Definition Free (this : PVOID * Heap) : PVOID * Heap :=
  CObject.Close CMemoryDefiner this.

(** The second component is the value returned. *)
Definition Alloc (ok : bool) (Size : Z) (this : PVOID * Heap)
    : (PVOID * Heap) * bool :=
  let this := Free this in
  let '(p, h) := malloc ok Size (snd this) in
  ((p, h), negb (p =? nullptr)).

(** What a client does to a memory object between its construction and
    its destruction. *)
Inductive Op :=
| OpAlloc (ok : bool) (Size : Z)
| OpFree.

Definition step (this : PVOID * Heap) (op : Op) : PVOID * Heap :=
  match op with
  | OpAlloc ok Size => fst (Alloc ok Size this)
  | OpFree => Free this
  end.

Definition exec (ops : list Op) (this : PVOID * Heap) : PVOID * Heap :=
  foldl step this ops.

(** Construction with the default argument, the operations, destruction. *)
Definition lifetime (ops : list Op) (h : Heap) : Heap :=
  CObject.destroy CMemoryDefiner
    (exec ops (CObject.create GetInvalidValue h)).

End CMemory.

(** Between two operations the memory object owns at most one block, which
    is live, and the heap is otherwise as [h0] was. *)
Definition CMemory_invariant (h0 : Heap) (this : PVOID * Heap) : Prop :=
  h_bad_frees this.2 = h_bad_frees h0 /\
  heap_ok this.2 /\
  ((this.1 = nullptr /\ h_live this.2 = h_live h0) \/
   (this.1 <> nullptr /\ (this.1 ∉ h_live h0) /\
    h_live this.2 = {[ this.1 ]} ∪ h_live h0)).

(** A heap with one live block that does not belong to the object. *)
Definition sample_heap : Heap :=
  {| h_live := {[ 16 ]}; h_next := 32; h_bad_frees := [] |}.

(** ** Uses of M2::CObject *)

Section CObjectUses.

Context {TObject : Type} `{EqDecision TObject}.

(** The values a sequence of operations puts into the object, in order. *)
Definition values_put (ops : list (@CObject.Op TObject)) : list TObject :=
  omap (fun op => match op with
                  | CObject.OpAssign v | CObject.OpStore v => Some v
                  | _ => None
                  end) ops.

(** Only [Close] and assignment occur. *)
Definition closes_and_assigns (ops : list (@CObject.Op TObject)) : bool :=
  forallb (fun op => match op with
                     | CObject.OpClose | CObject.OpAssign _ => true
                     | _ => false
                     end) ops.

(** The objects among [l] that the wrapper would release. *)
Definition valid_objects (invalid : TObject) (l : list TObject) : list TObject :=
  filter (fun v => v <> invalid) l.

(** How many times the object [x] appears in [l]. *)
Definition occurrences (x : TObject) (l : list TObject) : nat :=
  length (filter (fun y => y = x) l).

End CObjectUses.

(** ** What the fault-free run leaves behind *)

(** The token objects after a fault-free run: the three that existed, the
    impersonation duplicate of the caller's token with the debug privilege
    adjusted, the impersonation duplicate of the lsass token with every
    privilege enabled, and the primary duplicate of the service token,
    rebound to the caller's session, with every privilege enabled and the
    system label. *)
Definition tokens_after_launch (caller lsass service : Token) : list Token :=
  [ caller; lsass; service;
    {| tk_type := TokenImpersonation; tk_level := SecurityImpersonation;
       tk_session := tk_session caller; tk_label := tk_label caller;
       tk_privileges :=
         map (Mile.adjust [ {| Luid := SE_DEBUG_PRIVILEGE;
                               Attributes := SE_PRIVILEGE_ENABLED |} ])
           (tk_privileges caller) |};
    {| tk_type := TokenImpersonation; tk_level := SecurityImpersonation;
       tk_session := tk_session lsass; tk_label := tk_label lsass;
       tk_privileges :=
         map (fun p => {| Luid := Luid p; Attributes := SE_PRIVILEGE_ENABLED |})
           (tk_privileges lsass) |};
    {| tk_type := TokenPrimary; tk_level := SecurityIdentification;
       tk_session := tk_session caller;
       tk_label := SECURITY_MANDATORY_SYSTEM_RID;
       tk_privileges :=
         map (fun p => {| Luid := Luid p; Attributes := SE_PRIVILEGE_ENABLED |})
           (tk_privileges service) |} ].

(** The process a fault-free run leaves running. *)
Definition launched_process (caller : Token) (expand : string -> string)
    (CommandLine : LPCWSTR) (CurrentDirectory : option LPCWSTR) : Process :=
  {| p_session := tk_session caller;
     p_label := SECURITY_MANDATORY_SYSTEM_RID;
     p_command_line := expand CommandLine;
     p_directory := CurrentDirectory;
     p_desktop := "WinSta0\Default";
     p_environment := Some 5%nat;
     p_creation_flags :=
       Z.lor (Z.lor CREATE_SUSPENDED CREATE_UNICODE_ENVIRONMENT)
         CREATE_NEW_CONSOLE;
     p_priority := ABOVE_NORMAL_PRIORITY_CLASS;
     p_suspended := false |}.

(** * Properties *)

Lemma is_S_OK_true hr : is_S_OK hr = true <-> hr = S_OK.
Proof. unfold is_S_OK. apply Z.eqb_eq. Qed.

Lemma is_S_OK_false hr : is_S_OK hr = false <-> hr <> S_OK.
Proof. unfold is_S_OK. apply Z.eqb_neq. Qed.

(** ** Fault plans are determined by their nineteen values *)

Lemma plan_eta (fault : Stage -> HRESULT) (s : Stage) :
  fault s = plan (map fault stage_order) s.
Proof. destruct s; reflexivity. Qed.

Lemma first_failure_ext (fault fault' : Stage -> HRESULT) :
  (forall s, fault s = fault' s) -> first_failure fault = first_failure fault'.
Proof.
  intros E. unfold first_failure.
  induction stage_order as [|s l IH]; simpl; [reflexivity|].
  rewrite E, IH. reflexivity.
Qed.

Lemma first_failure_Some (fault : Stage -> HRESULT) (k : Stage) :
  first_failure fault = Some k -> fault k <> S_OK.
Proof.
  unfold first_failure. intros H.
  apply find_some in H as [_ H].
  apply negb_true_iff, is_S_OK_false in H. exact H.
Qed.

Lemma first_failure_None (fault : Stage -> HRESULT) :
  first_failure fault = None -> forall s, fault s = S_OK.
Proof.
  unfold first_failure. intros H s.
  apply is_S_OK_true, negb_false_iff.
  apply (find_none _ _ H). destruct s; simpl; tauto.
Qed.

(** ** The pipeline consults the plan only through its values *)

Lemma mbind_ext {A B : Type} (m m' : M A) (k k' : A -> M B) (st : State) :
  m st = m' st ->
  (forall a st', k a st' = k' a st') ->
  (m ≫= k) st = (m' ≫= k') st.
Proof.
  unfold mbind, M_bind. intros -> H.
  destruct (m' st) as [[a|hr] st']; [apply H | reflexivity].
Qed.

Lemma invoke_ext {A : Type} (fault fault' : Stage -> HRESULT) (s : Stage)
    (api : Frame -> Api A) (current : A) (st : State) :
  (forall s, fault s = fault' s) ->
  invoke fault s api current st = invoke fault' s api current st.
Proof. intros E. unfold invoke. rewrite E. reflexivity. Qed.

Lemma invoke_into_ext {A : Type} (fault fault' : Stage -> HRESULT) (s : Stage)
    (api : Frame -> Api A) (store : A -> Frame -> Frame) (st : State) :
  (forall s, fault s = fault' s) ->
  invoke_into fault s api store st = invoke_into fault' s api store st.
Proof. intros E. unfold invoke_into. rewrite E. reflexivity. Qed.

Ltac plan_ext E :=
  repeat
    (intros;
     lazymatch goal with
     | |- mbind _ _ _ = mbind _ _ _ => apply mbind_ext
     | |- invoke_into _ _ _ _ _ = _ => apply invoke_into_ext; exact E
     | |- invoke _ _ _ _ _ = _ => apply invoke_ext; exact E
     | |- (let (_, _) := ?p in _) _ = _ => destruct p
     | |- (if ?b then _ else _) _ = _ => destruct b
     | |- ?l = ?r => constr_eq l r; reflexivity
     end).

Lemma NSudoCreateProcess_body_ext (fault fault' : Stage -> HRESULT)
    (CommandLine : LPCWSTR) (CurrentDirectory : option LPCWSTR) (st : State) :
  (forall s, fault s = fault' s) ->
  NSudoCreateProcess_body fault CommandLine CurrentDirectory st =
  NSudoCreateProcess_body fault' CommandLine CurrentDirectory st.
Proof.
  intros E. unfold NSudoCreateProcess_body. cbv zeta.
  plan_ext E.
Qed.

Lemma NSudoCreateProcess_frame_ext (fault fault' : Stage -> HRESULT)
    (CommandLine : LPCWSTR) (CurrentDirectory : option LPCWSTR) (w : World) :
  (forall s, fault s = fault' s) ->
  NSudoCreateProcess_frame fault CommandLine CurrentDirectory w =
  NSudoCreateProcess_frame fault' CommandLine CurrentDirectory w.
Proof.
  intros E. unfold NSudoCreateProcess_frame.
  rewrite (NSudoCreateProcess_body_ext fault fault' _ _ _ E). reflexivity.
Qed.

Lemma NSudoCreateProcess_ext (fault fault' : Stage -> HRESULT)
    (CommandLine : LPCWSTR) (CurrentDirectory : option LPCWSTR) (w : World) :
  (forall s, fault s = fault' s) ->
  NSudoCreateProcess fault CommandLine CurrentDirectory w =
  NSudoCreateProcess fault' CommandLine CurrentDirectory w.
Proof.
  intros E. unfold NSudoCreateProcess.
  rewrite (NSudoCreateProcess_frame_ext fault fault' _ _ _ E). reflexivity.
Qed.

(** ** The guard, on any state *)

Lemma close_if_valid_spec (var : Frame -> HANDLE) (f : Frame) (w : World) :
  exists w',
    close_if_valid var (f, w) = (Next tt, (f, w')) /\
    w_trace w' = w_trace w ++ map Closed (held_if (var f)) /\
    w_handles w' = foldr delete (w_handles w) (held_if (var f)).
Proof.
  unfold close_if_valid, held_if, ignore.
  destruct (negb (var f =? INVALID_HANDLE_VALUE)); simpl.
  - unfold Mile.MileCloseHandle.
    destruct (w_handles w !! var f) eqn:E; simpl; eexists; repeat split.
    symmetry. apply delete_id. exact E.
  - exists w. repeat split. symmetry. apply app_nil_r.
Qed.

Lemma Handler_lambda_spec (f : Frame) (w : World) :
  exists w',
    Handler_lambda (f, w) = (Next tt, (f, w')) /\
    w_trace w' = w_trace w ++ map Closed (held f) ++ [ThreadTokenSet nullptr] /\
    w_handles w' = foldr delete (w_handles w) (reverse (held f)) /\
    w_thread w' = None.
Proof.
  unfold Handler_lambda, held, mbind, M_bind.
  destruct (close_if_valid_spec CurrentProcessToken f w) as (w1 & -> & T1 & H1).
  destruct (close_if_valid_spec DuplicatedCurrentProcessToken f w1)
    as (w2 & -> & T2 & H2).
  destruct (close_if_valid_spec OriginalLsassProcessToken f w2)
    as (w3 & -> & T3 & H3).
  destruct (close_if_valid_spec SystemToken f w3) as (w4 & -> & T4 & H4).
  destruct (close_if_valid_spec hToken f w4) as (w5 & -> & T5 & H5).
  destruct (close_if_valid_spec OriginalToken f w5) as (w6 & -> & T6 & H6).
  unfold ignore, Mile.MileSetCurrentThreadToken. simpl.
  eexists. split; [reflexivity|]. simpl. repeat split.
  - rewrite T6, T5, T4, T3, T2, T1, !map_app, <- !app_assoc. reflexivity.
  - rewrite H6, H5, H4, H3, H2, H1, !reverse_app, <- !foldr_app.
    unfold held_if.
    repeat match goal with
           | |- context [negb ?b] => destruct (negb b)
           end; reflexivity.
Qed.

(** The guard of [NSudoCreateProcess] is armed when the scope is left: it
    is never cancelled. *)
Lemma Handler_armed : m_Canceled Handler = false.
Proof. reflexivity. Qed.

Lemma Handler_destroy (f : Frame) (w : World) :
  ScopeExit.destroy Handler (f, w) = (Handler_lambda (f, w)).2.
Proof. reflexivity. Qed.

(** C5 - On every return path of [NSudoCreateProcess], whatever the fault
    plan, the arguments and the state of the system it is entered in, the
    last thing done before the function returns is the call that sets the
    impersonation token of the calling thread to the null token, and the
    thread impersonates nobody when the function has returned. *)
Theorem NSudoCreateProcess_clears_thread_token (fault : Stage -> HRESULT)
    (CommandLine : LPCWSTR) (CurrentDirectory : option LPCWSTR) (w : World) :
  w_thread (NSudoCreateProcess fault CommandLine CurrentDirectory w).2 = None /\
  last (w_trace (NSudoCreateProcess fault CommandLine CurrentDirectory w).2)
    = Some (ThreadTokenSet nullptr).
Proof.
  unfold NSudoCreateProcess.
  destruct (NSudoCreateProcess_frame fault CommandLine CurrentDirectory w)
    as [hr [f w1]].
  rewrite Handler_destroy. simpl.
  destruct (Handler_lambda_spec f w1) as (w' & -> & T & _ & Th). simpl.
  split; [exact Th|].
  rewrite T, app_assoc. apply last_snoc.
Qed.

(** ** Enumerating the runs

    A goal about an arbitrary plan is reduced to one goal per run: the plan
    is replaced by its table of values, and the table is walked in program
    order; a value that is not [S_OK] ends the run, so that the remaining
    values are never looked at. *)
Ltac generalize_plan fault :=
  unfold stage_order; cbn [map];
  generalize (fault S_CreateProcessAsUser);
  generalize (fault S_ExpandEnvironmentStrings);
  generalize (fault S_CreateEnvironmentBlock);
  generalize (fault S_SetTokenMandatoryLabel);
  generalize (fault S_AdjustTokenAllPrivileges);
  generalize (fault S_SetTokenInformation);
  generalize (fault S_DuplicateServiceToken);
  generalize (fault S_OpenServiceProcessToken);
  generalize (fault S_SetThreadTokenSystem);
  generalize (fault S_AdjustSystemTokenPrivileges);
  generalize (fault S_DuplicateLsassToken);
  generalize (fault S_OpenLsassProcessToken);
  generalize (fault S_GetTokenInformation);
  generalize (fault S_OpenCurrentThreadToken);
  generalize (fault S_SetThreadTokenDuplicated);
  generalize (fault S_AdjustTokenPrivilegesSimple);
  generalize (fault S_GetPrivilegeValue);
  generalize (fault S_DuplicateCurrentProcessToken);
  generalize (fault S_OpenCurrentProcessToken);
  clear fault.

Ltac skip n :=
  lazymatch n with
  | O => idtac
  | S ?m => intros ?; skip m
  end.

Ltac walk n tac :=
  lazymatch n with
  | O => tac
  | S ?m => intros [|?|?]; [ walk m tac | skip m; tac | skip m; tac ]
  end.

Ltac walk_plan tac := walk 19%nat tac.

(** A decidable goal, settled by evaluation. *)
Ltac evaluate := apply (bool_decide_unpack _); vm_compute; exact I.

Ltac conjuncts := repeat match goal with |- _ /\ _ => split end.

(** A goal about one run: equalities by evaluation, the rest by its
    constructors or its decision procedure. *)
Ltac settle :=
  conjuncts;
  first [ vm_compute; reflexivity
        | solve [ vm_compute; repeat constructor ]
        | evaluate ].

(** ** The checker of resume events is sound *)

Lemma resumes_guarded_sound (t : list Event) :
  forall ready,
    resumes_guarded ready t = true ->
    forall pre post pid,
      t = pre ++ Resumed pid :: post ->
      pid ∈ ready \/ PrioritySet pid ABOVE_NORMAL_PRIORITY_CLASS ∈ pre.
Proof.
  induction t as [|e t IH]; intros ready G pre post pid E.
  - destruct pre; discriminate.
  - destruct pre as [|e' pre]; simpl in E; injection E as -> E.
    + simpl in G. apply andb_true_iff in G as [G _].
      left. apply bool_decide_eq_true in G. exact G.
    + assert (forall ready', resumes_guarded ready' t = true ->
                (pid ∈ ready' -> pid ∈ ready \/
                   PrioritySet pid ABOVE_NORMAL_PRIORITY_CLASS ∈ e' :: pre) ->
                pid ∈ ready \/
                PrioritySet pid ABOVE_NORMAL_PRIORITY_CLASS ∈ e' :: pre) as K.
      { intros ready' G' R.
        destruct (IH ready' G' pre post pid E) as [H|H]; [auto|].
        right. apply elem_of_cons. right. exact H. }
      destruct e'; simpl in G;
        try (apply (K ready G); auto; fail).
      * destruct (class =? ABOVE_NORMAL_PRIORITY_CLASS) eqn:C.
        -- apply (K _ G). intros [->|H]%elem_of_cons; [|auto].
           right. apply Z.eqb_eq in C as ->. apply elem_of_cons. left. reflexivity.
        -- apply (K ready G). auto.
      * apply andb_true_iff in G as [_ G]. apply (K ready G). auto.
Qed.

Lemma resumes_guarded_priority (t : list Event) :
  resumes_guarded [] t = true -> priority_before_resume t.
Proof.
  intros G pre post pid E.
  destruct (resumes_guarded_sound t [] G pre post pid E) as [H|H]; [|exact H].
  apply elem_of_nil in H. destruct H.
Qed.

Section Runs.

Variables (caller lsass service : Token) (expand : string -> string).
Variables (CommandLine : LPCWSTR) (CurrentDirectory : option LPCWSTR).

Abbreviation the_run :=
  (run caller lsass service expand CommandLine CurrentDirectory).
Abbreviation the_frame :=
  (run_frame caller lsass service expand CommandLine CurrentDirectory).

Lemma run_plan fault : the_run fault = the_run (plan (map fault stage_order)).
Proof. apply NSudoCreateProcess_ext, plan_eta. Qed.

Lemma run_frame_plan fault :
  the_frame fault = the_frame (plan (map fault stage_order)).
Proof. apply NSudoCreateProcess_frame_ext, plan_eta. Qed.

Lemma first_failure_plan fault :
  first_failure fault = first_failure (plan (map fault stage_order)).
Proof. apply first_failure_ext, plan_eta. Qed.

Ltac enumerate_runs fault tac :=
  rewrite ?(run_plan fault), ?(run_frame_plan fault),
    ?(first_failure_plan fault);
  generalize_plan fault;
  walk_plan tac.

(** The status returned is that of the first failing site when it is one
    of the sixteen token sites, and [S_OK] in every other run. *)
Lemma run_status fault :
  fst (the_run fault) =
  match first_failure fault with
  | Some k => if token_stage k then fault k else S_OK
  | None => S_OK
  end.
Proof.
  destruct (first_failure fault) as [k|] eqn:E.
  - rewrite (plan_eta fault k). revert E.
    enumerate_runs fault ltac:(vm_compute; intros [= <-]; reflexivity).
  - revert E.
    enumerate_runs fault ltac:(vm_compute; intros [=]; reflexivity).
Qed.


(** [succeeded] read off the trace: a site is before the first failure of
    the plan exactly when its call was made and reported [S_OK]. *)
Lemma succeeded_called fault s :
  bool_decide (Called s S_OK ∈ w_trace (the_run fault).2) = succeeded fault s.
Proof.
  unfold succeeded.
  destruct s; enumerate_runs fault ltac:(vm_compute; reflexivity).
Qed.

(** What is left in the handle table when the function has returned: the
    handle opened first, once the variable holding it has been reused for
    the thread token, and nothing otherwise; no handle is closed twice. *)
Lemma handles_at_return fault :
  w_handles (the_run fault).2 =
    (if succeeded fault S_OpenCurrentThreadToken
     then {[ 4 := KToken 0%nat ]} else ∅) /\
  NoDup (closed_handles (w_trace (the_run fault).2)) /\
  Forall (fun h => h ∈ opened_handles (w_trace (the_run fault).2))
    (closed_handles (w_trace (the_run fault).2)).
Proof.
  unfold succeeded.
  enumerate_runs fault ltac:(settle).
Qed.

(** C3 - as amended.  On every exit path of [NSudoCreateProcess] the guard
    is destroyed once, armed, and its one handler closes each handle then
    held in the six captured variables exactly once, in the order the
    handler names them (CurrentProcessToken, DuplicatedCurrentProcessToken,
    OriginalLsassProcessToken, SystemToken, hToken, OriginalToken), and then
    resets the thread token; the handles held are pairwise distinct. *)
Theorem guard_closes_in_declaration_order fault :
  the_run fault =
    ((the_frame fault).1, (ScopeExit.destroy Handler (the_frame fault).2).2) /\
  m_Canceled Handler = false /\
  w_trace (the_run fault).2 =
    w_trace (the_frame fault).2.2 ++
    map Closed (held (the_frame fault).2.1) ++ [ThreadTokenSet nullptr] /\
  NoDup (held (the_frame fault).2.1).
Proof.
  split; [|split; [reflexivity|split]].
  - unfold run, run_frame, NSudoCreateProcess.
    destruct (NSudoCreateProcess_frame _ _ _ _) as [hr st]. reflexivity.
  - unfold run, run_frame, NSudoCreateProcess.
    destruct (NSudoCreateProcess_frame _ _ _ _) as [hr [f w]].
    rewrite Handler_destroy. simpl.
    destruct (Handler_lambda_spec f w) as (w' & -> & T & _). exact T.
  - enumerate_runs fault ltac:(evaluate).
Qed.

(** C4 - In every run, every session identifier written onto a token and
    the session of every process launched equal the session of the
    caller's own process token, whatever the sessions of the two service
    tokens; the session is written once the sites up to the session write
    have succeeded, and a process exists exactly in the fault-free run. *)
Theorem launched_session_is_callers fault :
  sessions_set (w_trace (the_run fault).2) =
    (if succeeded fault S_SetTokenInformation then [tk_session caller] else []) /\
  map p_session (w_processes (the_run fault).2) =
    (if succeeded fault S_CreateProcessAsUser then [tk_session caller] else []) /\
  Forall (fun p => p_session p = tk_session caller) (w_processes (the_run fault).2).
Proof.
  unfold succeeded.
  enumerate_runs fault ltac:(settle).
Qed.

(** C6 - In every run, each resume of a process is preceded in the trace by
    the call that sets the priority class of that process to the
    above-normal class; in the run in which the process is created the
    priority is set once, the thread is resumed once, and the process ends
    up running at the above-normal class; in every other run neither call
    is made. *)
Theorem priority_set_before_resume fault :
  priority_before_resume (w_trace (the_run fault).2) /\
  priorities_set (w_trace (the_run fault).2) =
    (if succeeded fault S_CreateProcessAsUser
     then [(0%nat, ABOVE_NORMAL_PRIORITY_CLASS)] else []) /\
  resumes (w_trace (the_run fault).2) =
    (if succeeded fault S_CreateProcessAsUser then [0%nat] else []) /\
  map (fun p => (p_priority p, p_suspended p)) (w_processes (the_run fault).2) =
    (if succeeded fault S_CreateProcessAsUser
     then [(ABOVE_NORMAL_PRIORITY_CLASS, false)] else []).
Proof.
  unfold succeeded.
  enumerate_runs fault
    ltac:(split; [apply resumes_guarded_priority; vm_compute; reflexivity
                 | settle]).
Qed.

(** C7 - In every run, the environment block is created exactly when the
    sites before it succeeded, and is then destroyed exactly once; the
    expanded command line is allocated exactly when environment-block
    creation succeeded too, and is then freed exactly once; expansion is
    attempted exactly when the environment block was created; nothing the
    pipeline allocated is live when the function returns. *)
Theorem environment_and_buffer_released fault :
  w_heap (the_run fault).2 = ∅ /\
  destroyed_blocks (w_trace (the_run fault).2) =
    created_blocks (w_trace (the_run fault).2) /\
  length (created_blocks (w_trace (the_run fault).2)) =
    (if succeeded fault S_CreateEnvironmentBlock then 1 else 0)%nat /\
  freed_buffers (w_trace (the_run fault).2) =
    allocated_buffers (w_trace (the_run fault).2) /\
  length (allocated_buffers (w_trace (the_run fault).2)) =
    (if succeeded fault S_ExpandEnvironmentStrings then 1 else 0)%nat /\
  bool_decide (S_ExpandEnvironmentStrings ∈ (calls (w_trace (the_run fault).2)).*1) =
    succeeded fault S_CreateEnvironmentBlock /\
  bool_decide (S_CreateProcessAsUser ∈ (calls (w_trace (the_run fault).2)).*1) =
    succeeded fault S_ExpandEnvironmentStrings.
Proof.
  unfold succeeded.
  enumerate_runs fault ltac:(settle).
Qed.

(** C8 - In every run, the inspected sites are called in program order
    without gap or repetition, and every call but the last one made
    reported [S_OK].  The calls after process creation - priority class,
    resume, wait, and the closes of the process and thread handles - are
    attempted only in a run in which process creation reported [S_OK]: in
    every other run the trace has no call of the priority, resume or wait
    primitive on any handle, valid or not, and no close of a handle that
    was not opened. *)
Theorem stages_sequential_and_short_circuiting fault :
  (calls (w_trace (the_run fault).2)).*1 `prefix_of` stage_order /\
  Forall (fun c => c.2 = S_OK) (removelast (calls (w_trace (the_run fault).2))) /\
  (Called S_CreateProcessAsUser S_OK ∈ w_trace (the_run fault).2 \/
   (priority_calls (w_trace (the_run fault).2) = [] /\
    resume_calls (w_trace (the_run fault).2) = [] /\
    waits (w_trace (the_run fault).2) = [] /\
    priorities_set (w_trace (the_run fault).2) = [] /\
    resumes (w_trace (the_run fault).2) = [])) /\
  priority_calls (w_trace (the_run fault).2) =
    (if succeeded fault S_CreateProcessAsUser
     then [(32, ABOVE_NORMAL_PRIORITY_CLASS)] else []) /\
  resume_calls (w_trace (the_run fault).2) =
    (if succeeded fault S_CreateProcessAsUser then [36] else []) /\
  Forall (fun h => h ∈ opened_handles (w_trace (the_run fault).2))
    (closed_handles (w_trace (the_run fault).2)).
Proof.
  unfold succeeded.
  enumerate_runs fault
    ltac:(split; [evaluate | split; [evaluate | split; [|settle]]];
          first [ left; evaluate | right; conjuncts; vm_compute; reflexivity ]).
Qed.

(** X1 - The status returned by a run is the status of the first failing
    site when that site is one of the sixteen token sites, and [S_OK] in
    every other run: in the fault-free run, and when the first failure is
    that of environment-block creation, of command-line expansion or of
    process creation. *)
Theorem status_returned fault :
  (the_run fault).1 =
  match first_failure fault with
  | Some k => if token_stage k then fault k else S_OK
  | None => S_OK
  end.
Proof. exact (run_status fault). Qed.

(** X2 - In every run no handle is closed twice and only handles that were
    opened are closed; every handle opened is closed by the time the
    function returns, except the one opened first, which stays open
    exactly in the runs in which the thread token was opened after it. *)
Theorem handles_left_open fault :
  NoDup (closed_handles (w_trace (the_run fault).2)) /\
  Forall (fun h => h ∈ opened_handles (w_trace (the_run fault).2))
    (closed_handles (w_trace (the_run fault).2)) /\
  w_handles (the_run fault).2 =
    (if succeeded fault S_OpenCurrentThreadToken
     then {[ 4 := KToken 0%nat ]} else ∅) /\
  length (opened_handles (w_trace (the_run fault).2)) =
    (length (closed_handles (w_trace (the_run fault).2)) +
     (if succeeded fault S_OpenCurrentThreadToken then 1 else 0))%nat.
Proof.
  unfold succeeded.
  enumerate_runs fault ltac:(settle).
Qed.

(** X3 - In every run the three token objects that existed before the call
    are left as they were: the pipeline changes only the duplicates it
    makes, and it makes one token object per successful duplication. *)
Theorem existing_tokens_untouched fault :
  take 3 (w_tokens (the_run fault).2) = [caller; lsass; service] /\
  length (w_tokens (the_run fault).2) =
    (3 + (if succeeded fault S_DuplicateCurrentProcessToken then 1 else 0)
       + (if succeeded fault S_DuplicateLsassToken then 1 else 0)
       + (if succeeded fault S_DuplicateServiceToken then 1 else 0))%nat.
Proof.
  unfold succeeded.
  enumerate_runs fault ltac:(settle).
Qed.

(** X4 - A process exists after the call exactly when all nineteen sites
    succeeded.  It then runs the expanded command line in the directory
    asked for, on the interactive desktop, in the caller's session, at the
    system integrity label, with the environment block built for the
    target token; it was created suspended, in a new console, with a
    Unicode environment, and is running at the above-normal class. *)
Theorem process_launched fault :
  w_processes (the_run fault).2 =
    (if succeeded fault S_CreateProcessAsUser
     then [launched_process caller expand CommandLine CurrentDirectory]
     else []).
Proof.
  unfold succeeded.
  enumerate_runs fault ltac:(vm_compute; reflexivity).
Qed.

(** X5 - When no site fails, the token objects after the call are the three
    that existed, unchanged, and the three duplicates: the caller's
    impersonation duplicate with only the debug privilege adjusted, the
    lsass impersonation duplicate with every privilege enabled, and the
    primary token of the launch, an identification-level duplicate of the
    service token in the caller's session, every privilege enabled, at the
    system label. *)
Theorem tokens_of_fault_free_run fault :
  first_failure fault = None ->
  w_tokens (the_run fault).2 = tokens_after_launch caller lsass service.
Proof.
  revert fault. intros fault.
  enumerate_runs fault
    ltac:(intros E; first [ discriminate E | vm_compute; reflexivity ]).
Qed.

(** X6 - The impersonation token of the calling thread is set to the
    caller's duplicate when the sites up to that call succeed, then to the
    lsass duplicate when the sites up to that call succeed, and finally,
    in every run, to the null token: it is replaced at most twice and reset
    exactly once, last, and no other token is ever adopted. *)
Theorem thread_token_history fault :
  thread_tokens (w_trace (the_run fault).2) =
    (if succeeded fault S_SetThreadTokenDuplicated
     then [DuplicatedCurrentProcessToken (the_frame fault).2.1] else []) ++
    (if succeeded fault S_SetThreadTokenSystem
     then [SystemToken (the_frame fault).2.1] else []) ++
    [nullptr].
Proof.
  unfold succeeded.
  enumerate_runs fault ltac:(vm_compute; reflexivity).
Qed.

End Runs.

(** ** The sample machine *)

Example sample_success_trace :
  w_trace (sample_run no_fault).2 =
  [ Opened 4 (KToken 0); Called S_OpenCurrentProcessToken 0;
    Opened 8 (KToken 3); Called S_DuplicateCurrentProcessToken 0;
    Called S_GetPrivilegeValue 0; Called S_AdjustTokenPrivilegesSimple 0;
    ThreadTokenSet 8; Called S_SetThreadTokenDuplicated 0;
    Opened 12 (KToken 3); Called S_OpenCurrentThreadToken 0;
    Called S_GetTokenInformation 0;
    Opened 16 (KToken 1); Called S_OpenLsassProcessToken 0;
    Opened 20 (KToken 4); Called S_DuplicateLsassToken 0;
    Called S_AdjustSystemTokenPrivileges 0;
    ThreadTokenSet 20; Called S_SetThreadTokenSystem 0;
    Opened 24 (KToken 2); Called S_OpenServiceProcessToken 0;
    Opened 28 (KToken 5); Called S_DuplicateServiceToken 0;
    SessionSet 28 1; Called S_SetTokenInformation 0;
    Called S_AdjustTokenAllPrivileges 0; Called S_SetTokenMandatoryLabel 0;
    EnvironmentCreated 4096; Called S_CreateEnvironmentBlock 0;
    Allocated 4112; Called S_ExpandEnvironmentStrings 0;
    ProcessCreated 0; Opened 32 (KProcess 0); Opened 36 (KThread 0);
    Called S_CreateProcessAsUser 0;
    PriorityCall 32 ABOVE_NORMAL_PRIORITY_CLASS;
    PrioritySet 0 ABOVE_NORMAL_PRIORITY_CLASS;
    ResumeCall 36; Resumed 0; Waited 32;
    Closed 32; Closed 36; Freed 4112; EnvironmentDestroyed 4096;
    Closed 12; Closed 8; Closed 16; Closed 20; Closed 28; Closed 24;
    ThreadTokenSet 0 ].
Proof. vm_compute. reflexivity. Qed.

Example sample_success_process :
  (sample_run no_fault).1 = S_OK /\
  w_processes (sample_run no_fault).2 =
  [ {| p_session := 1;
       p_label := SECURITY_MANDATORY_SYSTEM_RID;
       p_command_line := "C:\Windows\System32\cmd.exe";
       p_directory := None;
       p_desktop := "WinSta0\Default";
       p_environment := Some 5%nat;
       p_creation_flags := 0x414;
       p_priority := ABOVE_NORMAL_PRIORITY_CLASS;
       p_suspended := false |} ].
Proof. split; vm_compute; reflexivity. Qed.

(** The service is absent: the open fails on its own account, its status
    is returned and no process exists. *)
Example sample_service_absent :
  let r := NSudoCreateProcess no_fault "cmd"%string None
             {| w_tokens := [user_token; lsass_token];
                w_process_token := 0; w_lsass_token := 1; w_services := [];
                w_expand := fun s => s; w_handles := ∅; w_next_handle := 4;
                w_thread := None; w_heap := ∅; w_next_block := 0x1000;
                w_processes := []; w_trace := [] |} in
  r.1 = E_SERVICE_DOES_NOT_EXIST /\ w_processes r.2 = [] /\ w_thread r.2 = None.
Proof. vm_compute. repeat split; reflexivity. Qed.

(** C1 - the code at the failing inputs.  When environment-block creation,
    command-line expansion or process creation is the call that fails, the
    function still returns [S_OK]: the failing status is the last status a
    call reported, no process exists, and the value returned is zero. *)
Theorem late_failures_report_success :
  (missing_program_run.1 = S_OK /\
   last (calls (w_trace missing_program_run.2)) =
     Some (S_CreateProcessAsUser, E_FILE_NOT_FOUND) /\
   w_processes missing_program_run.2 = []) /\
  ((sample_run (fail_at S_ExpandEnvironmentStrings E_ACCESSDENIED)).1 = S_OK /\
   last (calls (w_trace (sample_run
           (fail_at S_ExpandEnvironmentStrings E_ACCESSDENIED)).2)) =
     Some (S_ExpandEnvironmentStrings, E_ACCESSDENIED) /\
   w_processes (sample_run
     (fail_at S_ExpandEnvironmentStrings E_ACCESSDENIED)).2 = []) /\
  ((sample_run (fail_at S_CreateEnvironmentBlock E_ACCESSDENIED)).1 = S_OK /\
   last (calls (w_trace (sample_run
           (fail_at S_CreateEnvironmentBlock E_ACCESSDENIED)).2)) =
     Some (S_CreateEnvironmentBlock, E_ACCESSDENIED) /\
   w_processes (sample_run
     (fail_at S_CreateEnvironmentBlock E_ACCESSDENIED)).2 = []).
Proof. conjuncts; vm_compute; reflexivity. Qed.

(** C2 - the code at the failing input.  When opening the token of the
    always-resident process fails, three token handles have been opened
    before; the guard closes the last two, and the handle of the caller's
    process token, opened first, is never closed and is still in the handle
    table when the function has returned. *)
Theorem process_token_handle_leaks :
  (sample_run (fail_at S_OpenLsassProcessToken E_ACCESSDENIED)).1
    = E_ACCESSDENIED /\
  opened_handles (w_trace
    (sample_run (fail_at S_OpenLsassProcessToken E_ACCESSDENIED)).2)
    = [4; 8; 12] /\
  closed_handles (w_trace
    (sample_run (fail_at S_OpenLsassProcessToken E_ACCESSDENIED)).2)
    = [12; 8] /\
  w_handles (sample_run (fail_at S_OpenLsassProcessToken E_ACCESSDENIED)).2
    = {[ 4 := KToken 0%nat ]}.
Proof. conjuncts; vm_compute; reflexivity. Qed.

(** C3 - counterexample to release in reverse order of acquisition.  When
    the privilege lookup fails, the two handles opened before it are both
    closed by the guard, the one acquired first being closed first: the
    order is that of acquisition, not its reverse. *)
Lemma guard_order_is_not_reverse :
  opened_handles (w_trace
    (sample_run (fail_at S_GetPrivilegeValue E_ACCESSDENIED)).2) = [4; 8] /\
  closed_handles (w_trace
    (sample_run (fail_at S_GetPrivilegeValue E_ACCESSDENIED)).2) = [4; 8] /\
  closed_handles (w_trace
    (sample_run (fail_at S_GetPrivilegeValue E_ACCESSDENIED)).2) <>
  reverse (opened_handles (w_trace
    (sample_run (fail_at S_GetPrivilegeValue E_ACCESSDENIED)).2)).
Proof.
  conjuncts; try (vm_compute; reflexivity).
  vm_compute. intros [=].
Qed.

(** ** NSudoMain *)

Example AppPath_of_module_path :
  m_AppPath <$> Initialize 0x400000 "C:\NSudo\NSudo.exe" g_ResourceManagement
  = Some "C:\NSudo"%string.
Proof. reflexivity. Qed.

Example Initialize_without_backslash :
  Initialize 0x400000 "" g_ResourceManagement = None.
Proof. reflexivity. Qed.






(** ** M2::CObject *)

Section CObjectProperties.

Context {TObject W : Type} `{EqDecision TObject}.

Lemma Close_invalid (D : TObjectDefiner TObject W) (this : CObject.t) :
  CObject.IsInvalid D (CObject.Close D this) = true.
Proof.
  unfold CObject.Close.
  destruct (CObject.IsInvalid D this) eqn:E; simpl; [exact E|].
  unfold CObject.IsInvalid. simpl. apply bool_decide_eq_true. reflexivity.
Qed.

Lemma Close_twice (D : TObjectDefiner TObject W) (this : CObject.t) :
  CObject.Close D (CObject.Close D this) = CObject.Close D this.
Proof.
  pose proof (Close_invalid D this) as E.
  unfold CObject.Close at 1. rewrite E. reflexivity.
Qed.

Lemma Assign_same (D : TObjectDefiner TObject W) (this : CObject.t) :
  CObject.Assign D (CObject.m_Object this) this = (this, CObject.m_Object this).
Proof.
  unfold CObject.Assign.
  rewrite bool_decide_eq_false_2; [reflexivity|]. intros N. apply N. reflexivity.
Qed.

(** The number of releases recorded plus what is still owned grows by at
    most one each time a value is put into the object, and never
    otherwise. *)
Lemma step_potential (invalid : TObject) (this : TObject * list TObject)
    (op : CObject.Op) :
  (length (CObject.step (Recorder TObject invalid) this op).2 +
   CObject.owns (Recorder TObject invalid)
     (CObject.step (Recorder TObject invalid) this op)
   <= length this.2 + CObject.owns (Recorder TObject invalid) this +
      CObject.acquisitions [op])%nat.
Proof.
  destruct this as [o l].
  destruct op as [|v| |v]; unfold CObject.acquisitions; simpl;
    unfold CObject.Assign, CObject.Close, CObject.Store, CObject.owns,
      CObject.IsInvalid, CObject.m_Object; simpl.
  - destruct (bool_decide (o = invalid)) eqn:E; simpl.
    + rewrite E. lia.
    + rewrite bool_decide_eq_true_2 by reflexivity.
      rewrite length_app. simpl. lia.
  - destruct (bool_decide (v <> o)); simpl.
    + destruct (bool_decide (o = invalid)); simpl;
        destruct (bool_decide (v = invalid)); try rewrite length_app; simpl; lia.
    + lia.
  - rewrite bool_decide_eq_true_2 by reflexivity.
    destruct (bool_decide (o = invalid)); lia.
  - destruct (bool_decide (o = invalid)); destruct (bool_decide (v = invalid)); lia.
Qed.

Lemma exec_potential (invalid : TObject) (ops : list CObject.Op) :
  forall this : TObject * list TObject,
    (length (CObject.exec (Recorder TObject invalid) ops this).2 +
     CObject.owns (Recorder TObject invalid)
       (CObject.exec (Recorder TObject invalid) ops this)
     <= length this.2 + CObject.owns (Recorder TObject invalid) this +
        CObject.acquisitions ops)%nat.
Proof.
  induction ops as [|op ops IH]; intros this.
  - unfold CObject.acquisitions. simpl. lia.
  - pose proof (step_potential invalid this op) as S1.
    pose proof (IH (CObject.step (Recorder TObject invalid) this op)) as S2.
    change (CObject.exec (Recorder TObject invalid) (op :: ops) this)
      with (CObject.exec (Recorder TObject invalid) ops
              (CObject.step (Recorder TObject invalid) this op)).
    assert (CObject.acquisitions (op :: ops) =
            (CObject.acquisitions [op] + CObject.acquisitions ops)%nat) as ->.
    { unfold CObject.acquisitions. destruct op; reflexivity. }
    lia.
Qed.

Lemma valid_objects_cons (invalid o : TObject) (l : list TObject) :
  valid_objects invalid (o :: l) =
  (if bool_decide (o = invalid) then [] else [o]) ++ valid_objects invalid l.
Proof.
  unfold valid_objects. rewrite filter_cons.
  destruct (decide (o <> invalid)) as [N|N].
  - rewrite bool_decide_eq_false_2 by exact N. reflexivity.
  - rewrite bool_decide_eq_true_2; [reflexivity|].
    destruct (decide (o = invalid)); [assumption|contradiction].
Qed.

(** One step releases nothing but the object owned, and leaves in the
    wrapper either the object owned or the value put in: the releases made
    and the objects still to come are, in order, among those before. *)
Lemma step_releases_sublist (invalid : TObject) (o : TObject)
    (released : list TObject) (op : CObject.Op) (ops : list CObject.Op) :
  (CObject.step (Recorder TObject invalid) (o, released) op).2 ++
  valid_objects invalid
    ((CObject.step (Recorder TObject invalid) (o, released) op).1 ::
     values_put ops)
  `sublist_of`
  released ++ valid_objects invalid (o :: values_put (op :: ops)).
Proof.
  rewrite !valid_objects_cons.
  destruct op as [|v| |v]; simpl;
    unfold CObject.Assign, CObject.Close, CObject.Store, CObject.IsInvalid,
      CObject.m_Object; simpl.
  - destruct (bool_decide (o = invalid)) eqn:E; simpl.
    + rewrite E. reflexivity.
    + rewrite bool_decide_eq_true_2 by reflexivity.
      rewrite <- app_assoc. reflexivity.
  - rewrite valid_objects_cons.
    destruct (bool_decide (v <> o)) eqn:V; simpl.
    + destruct (bool_decide (o = invalid)) eqn:E; simpl.
      * reflexivity.
      * rewrite <- app_assoc. reflexivity.
    + apply sublist_app; [reflexivity|].
      apply sublist_app; [reflexivity|]. apply sublist_inserts_l. reflexivity.
  - rewrite bool_decide_eq_true_2 by reflexivity. simpl.
    apply sublist_app; [reflexivity|]. apply sublist_inserts_l. reflexivity.
  - rewrite valid_objects_cons.
    apply sublist_app; [reflexivity|]. apply sublist_inserts_l. reflexivity.
Qed.

Lemma exec_releases_sublist (invalid : TObject) (ops : list CObject.Op) :
  forall (o : TObject) (released : list TObject),
    (CObject.exec (Recorder TObject invalid) ops (o, released)).2 ++
    valid_objects invalid
      [(CObject.exec (Recorder TObject invalid) ops (o, released)).1]
    `sublist_of`
    released ++ valid_objects invalid (o :: values_put ops).
Proof.
  induction ops as [|op ops IH]; intros o released.
  - reflexivity.
  - change (CObject.exec (Recorder TObject invalid) (op :: ops) (o, released))
      with (CObject.exec (Recorder TObject invalid) ops
              (CObject.step (Recorder TObject invalid) (o, released) op)).
    pose proof (step_releases_sublist invalid o released op ops) as S.
    destruct (CObject.step (Recorder TObject invalid) (o, released) op)
      as [o' released'].
    etransitivity; [apply IH|exact S].
Qed.

Lemma occurrences_sublist (x : TObject) (l k : list TObject) :
  l `sublist_of` k -> (occurrences x l <= occurrences x k)%nat.
Proof.
  unfold occurrences. intros S. induction S as [|a l k S IH|a l k S IH].
  - reflexivity.
  - rewrite !filter_cons. destruct (decide (a = x)); simpl; lia.
  - rewrite filter_cons. destruct (decide (a = x)); simpl; lia.
Qed.

Lemma occurrences_app (x : TObject) (l k : list TObject) :
  occurrences x (l ++ k) = (occurrences x l + occurrences x k)%nat.
Proof. unfold occurrences. rewrite filter_app, length_app. reflexivity. Qed.

(** C10 - For any definer: after [Close] the stored value is the invalid
    sentinel, so that a second [Close] changes nothing and releases
    nothing; assigning the value currently stored changes nothing and
    releases nothing; and over any sequence of [Close], assignment,
    [Detach] and stores through [operator&] the release function is invoked
    at most once per object owned.  In number: the releases made, plus the
    object still owned, never exceed the releases made before, plus the
    object owned before, plus the number of values put into the object.
    Object by object: the releases made, followed by the object still
    owned, are, in order, among the releases made before followed by the
    object owned before and the values put in, each taken at most once; so
    any object [x] is released, or still owned, at most as many times as
    it was released before, owned before or put in. *)
Theorem CObject_Close_idempotent (D : TObjectDefiner TObject W)
    (this : CObject.t) (invalid : TObject) (ops : list CObject.Op)
    (recorded : TObject * list TObject) (x : TObject) :
  CObject.m_Object (CObject.Close D this) = GetInvalidValue /\
  CObject.Close D (CObject.Close D this) = CObject.Close D this /\
  CObject.Assign D (CObject.m_Object this) this = (this, CObject.m_Object this) /\
  (length (CObject.exec (Recorder TObject invalid) ops recorded).2 +
   CObject.owns (Recorder TObject invalid)
     (CObject.exec (Recorder TObject invalid) ops recorded)
   <= length recorded.2 + CObject.owns (Recorder TObject invalid) recorded +
      CObject.acquisitions ops)%nat /\
  (CObject.exec (Recorder TObject invalid) ops recorded).2 ++
  valid_objects invalid
    [(CObject.exec (Recorder TObject invalid) ops recorded).1]
  `sublist_of`
  recorded.2 ++ valid_objects invalid (recorded.1 :: values_put ops) /\
  (occurrences x (CObject.exec (Recorder TObject invalid) ops recorded).2 +
   occurrences x
     (valid_objects invalid
        [(CObject.exec (Recorder TObject invalid) ops recorded).1])
   <= occurrences x recorded.2 +
      occurrences x (valid_objects invalid (recorded.1 :: values_put ops)))%nat.
Proof.
  split; [|split; [apply Close_twice|split; [apply Assign_same|
    split; [apply exec_potential|]]]].
  - pose proof (Close_invalid D this) as E.
    unfold CObject.IsInvalid in E. apply bool_decide_eq_true in E. exact E.
  - destruct recorded as [o released].
    pose proof (exec_releases_sublist invalid ops o released) as S.
    split; [exact S|].
    rewrite <- !occurrences_app. apply occurrences_sublist. exact S.
Qed.

End CObjectProperties.

(** A handle wrapper on the sample machine: the handle is released once,
    however often it is closed afterwards. *)
Example CHandle_closed_once :
  let w := (Mile.MileOpenCurrentProcessToken MAXIMUM_ALLOWED
              (boot user_token lsass_token trusted_installer_token (fun s => s))).2 in
  closed_handles (w_trace
    (CObject.exec CHandleDefiner
       [CObject.OpClose; CObject.OpAssign INVALID_HANDLE_VALUE; CObject.OpClose]
       (CObject.create 4 w)).2) = [4].
Proof. vm_compute. reflexivity. Qed.

(** Witness of [tokens_of_fault_free_run] on the sample machine. *)
Lemma tokens_of_fault_free_run_witness :
  w_tokens (sample_run no_fault).2 =
  tokens_after_launch user_token lsass_token trusted_installer_token.
Proof.
  apply (tokens_of_fault_free_run user_token lsass_token
           trusted_installer_token (fun s => s)
           "C:\Windows\System32\cmd.exe"%string None no_fault).
  reflexivity.
Defined.

(** ** The guard and the handle table *)

Lemma lookup_foldr_delete (m : gmap Z KObject) (l : list Z) (h : Z) :
  foldr delete m l !! h = if bool_decide (h ∈ l) then None else m !! h.
Proof.
  induction l as [|a l IH]; simpl.
  - reflexivity.
  - destruct (decide (h = a)) as [->|N].
    + rewrite lookup_delete_eq.
      rewrite bool_decide_eq_true_2; [reflexivity|]. apply elem_of_cons. auto.
    + rewrite lookup_delete_ne by congruence. rewrite IH.
      destruct (bool_decide (h ∈ l)) eqn:E.
      * rewrite bool_decide_eq_true_2; [reflexivity|].
        apply elem_of_cons. right. apply bool_decide_eq_true in E. exact E.
      * rewrite bool_decide_eq_false_2; [reflexivity|].
        apply bool_decide_eq_false in E.
        intros H. apply elem_of_cons in H as [H|H]; [exact (N H)|exact (E H)].
Qed.

(** X7 - Whatever state the scope is left in, destroying the guard removes
    from the handle table exactly the handles held in the six captured
    variables, and leaves every other handle of the process as it was. *)
Theorem guard_closes_exactly_held (f : Frame) (w : World) (h : HANDLE) :
  w_handles (ScopeExit.destroy Handler (f, w)).2 !! h =
    if bool_decide (h ∈ held f) then None else w_handles w !! h.
Proof.
  rewrite Handler_destroy.
  destruct (Handler_lambda_spec f w) as (w' & -> & _ & H & _). simpl.
  rewrite H, lookup_foldr_delete.
  destruct (bool_decide (h ∈ held f)) eqn:E.
  - rewrite bool_decide_eq_true_2; [reflexivity|].
    rewrite elem_of_reverse. apply bool_decide_eq_true in E. exact E.
  - rewrite bool_decide_eq_false_2; [reflexivity|].
    apply bool_decide_eq_false in E.
    intros H'. rewrite elem_of_reverse in H'. exact (E H').
Qed.

(** ** M2PathFindFileName *)

Lemma M2PathFindFileName_loop_suffix (Path : string) :
  forall i FileName,
    M2PathFindFileName_loop i Path FileName = FileName \/
    exists before,
      Path = (before ++ M2PathFindFileName_loop i Path FileName)%string.
Proof.
  induction Path as [|c rest IH]; intros i FileName.
  - destruct i; left; reflexivity.
  - destruct i as [|i]; [left; reflexivity|]. simpl.
    destruct (Ascii.eqb c NUL); [left; reflexivity|].
    destruct (is_separator c).
    + right. destruct (IH i rest) as [E|[before E]].
      * exists (String c EmptyString). rewrite E. reflexivity.
      * exists (String c before). exact (f_equal (String c) E).
    + destruct (IH i FileName) as [E|[before E]].
      * left. exact E.
      * right. exists (String c before). exact (f_equal (String c) E).
Qed.

(** X8 - The pointer returned points into the path given: the result is
    the path itself or what follows some prefix of it, for a path of any
    length; a null pointer is returned for a null pointer. *)
Theorem M2PathFindFileName_is_suffix (Path : string) :
  M2PathFindFileName None = None /\
  exists before name,
    M2PathFindFileName (Some Path) = Some name /\
    Path = (before ++ name)%string.
Proof.
  split; [reflexivity|]. unfold M2PathFindFileName.
  destruct (M2PathFindFileName_loop_suffix Path MAX_PATH Path) as [E|[before E]].
  - exists EmptyString, Path. rewrite E. split; reflexivity.
  - exists before. eexists. split; [reflexivity|exact E].
Qed.

Lemma M2PathFindFileName_loop_separator_free (Path : string) :
  forall i FileName,
    (wcslen Path <= i)%nat ->
    (M2PathFindFileName_loop i Path FileName = FileName /\
     separator_free Path = true) \/
    separator_free (M2PathFindFileName_loop i Path FileName) = true.
Proof.
  induction Path as [|c rest IH]; intros i FileName L.
  - left. destruct i; split; reflexivity.
  - simpl in L. simpl separator_free.
    destruct (Ascii.eqb c NUL) eqn:N.
    + left. destruct i; simpl; rewrite ?N; split; reflexivity.
    + destruct i as [|i]; [lia|]. simpl. rewrite N.
      destruct (is_separator c) eqn:S.
      * right. destruct (IH i rest) as [[E F]|F]; [lia| |exact F].
        rewrite E. exact F.
      * destruct (IH i FileName) as [[E F]|F]; [lia| |right; exact F].
        left. split; [exact E|]. simpl. exact F.
Qed.

Lemma M2PathFindFileName_loop_free (Path : string) :
  forall i FileName,
    separator_free Path = true ->
    M2PathFindFileName_loop i Path FileName = FileName.
Proof.
  induction Path as [|c rest IH]; intros i FileName F.
  - destruct i; reflexivity.
  - destruct i as [|i]; [reflexivity|]. simpl in *.
    destruct (Ascii.eqb c NUL); [reflexivity|].
    apply andb_true_iff in F as [S F].
    apply negb_true_iff in S. rewrite S. apply IH. exact F.
Qed.

(** X9 - For a path of at most MAX_PATH characters, the file name
    returned contains no backslash and no slash, and asking for the file
    name of the file name returns it unchanged. *)
Theorem M2PathFindFileName_separator_free (Path : string) :
  (wcslen Path <= MAX_PATH)%nat ->
  exists name,
    M2PathFindFileName (Some Path) = Some name /\
    separator_free name = true /\
    M2PathFindFileName (Some name) = Some name.
Proof.
  intros L. eexists. split; [reflexivity|].
  assert (separator_free (M2PathFindFileName_loop MAX_PATH Path Path) = true)
    as F.
  { destruct (M2PathFindFileName_loop_separator_free Path MAX_PATH Path L)
      as [[E F]|F]; [rewrite E|]; exact F. }
  split; [exact F|].
  unfold M2PathFindFileName. f_equal.
  apply M2PathFindFileName_loop_free. exact F.
Qed.

Lemma M2PathFindFileName_separator_free_witness :
  exists name,
    M2PathFindFileName (Some "C:\NSudo\NSudo.exe"%string) = Some name /\
    separator_free name = true /\
    M2PathFindFileName (Some name) = Some name.
Proof.
  apply (M2PathFindFileName_separator_free "C:\NSudo\NSudo.exe").
  apply Nat.leb_le. vm_compute. reflexivity.
Defined.

Lemma is_separator_not_NUL (c : ascii) :
  is_separator c = true -> Ascii.eqb c NUL = false.
Proof.
  unfold is_separator. intros S.
  apply orb_true_iff in S as [S|S]; apply Ascii.eqb_eq in S; subst; reflexivity.
Qed.

Lemma M2PathFindFileName_loop_joined (name : string) (sep : ascii)
    (dir : string) :
  forall i FileName,
    is_separator sep = true ->
    NUL_free dir = true ->
    separator_free name = true ->
    (String.length dir < i)%nat ->
    M2PathFindFileName_loop i (dir ++ String sep name)%string FileName = name.
Proof.
  induction dir as [|c dir IH]; intros i FileName S N F L.
  - destruct i as [|i]; [simpl in L; lia|]. simpl.
    rewrite (is_separator_not_NUL sep S), S.
    apply M2PathFindFileName_loop_free. exact F.
  - destruct i as [|i]; [simpl in L; lia|]. simpl in *.
    apply andb_true_iff in N as [N1 N2]. apply negb_true_iff in N1.
    rewrite N1. apply IH; [exact S|exact N2|exact F|lia].
Qed.

(** X10 - For a directory part shorter than MAX_PATH characters, followed
    by a backslash or a slash and by a name without separators, the
    function returns the name, whatever the length of the name. *)
Theorem M2PathFindFileName_of_joined (dir name : string) (sep : ascii) :
  is_separator sep = true ->
  NUL_free dir = true ->
  (String.length dir < MAX_PATH)%nat ->
  separator_free name = true ->
  M2PathFindFileName (Some (dir ++ String sep name)%string) = Some name.
Proof.
  intros S N L F. unfold M2PathFindFileName. f_equal.
  apply M2PathFindFileName_loop_joined; assumption.
Qed.

Lemma M2PathFindFileName_of_joined_witness :
  M2PathFindFileName (Some ("C:\NSudo/bin" ++ String "\" "NSudo.exe")%string)
  = Some "NSudo.exe"%string.
Proof.
  apply (M2PathFindFileName_of_joined "C:\NSudo/bin" "NSudo.exe" "\").
  - reflexivity.
  - reflexivity.
  - apply Nat.ltb_lt. vm_compute. reflexivity.
  - reflexivity.
Defined.

Lemma M2PathFindFileName_loop_head (tail : string) (head : string) :
  forall FileName,
    NUL_free head = true ->
    separator_free head = true ->
    M2PathFindFileName_loop (String.length head) (head ++ tail)%string FileName
    = FileName.
Proof.
  induction head as [|c head IH]; intros FileName N F.
  - reflexivity.
  - simpl in *.
    apply andb_true_iff in N as [N1 N2]. apply negb_true_iff in N1.
    rewrite N1 in *.
    apply andb_true_iff in F as [S F]. apply negb_true_iff in S.
    rewrite S. apply IH; assumption.
Qed.

(** X11 - Only the first MAX_PATH characters are looked at: when they
    contain no separator, the path itself is returned, also when a
    separator follows later. *)
Theorem M2PathFindFileName_stops_at_MAX_PATH (head tail : string) :
  String.length head = MAX_PATH ->
  NUL_free head = true ->
  separator_free head = true ->
  M2PathFindFileName (Some (head ++ tail)%string) = Some (head ++ tail)%string.
Proof.
  intros L N F. unfold M2PathFindFileName. f_equal.
  rewrite <- L. apply M2PathFindFileName_loop_head; assumption.
Qed.

Lemma M2PathFindFileName_stops_at_MAX_PATH_witness :
  M2PathFindFileName
    (Some (string_of_list_ascii (repeat "a"%char 260) ++ "\NSudo.exe")%string)
  = Some (string_of_list_ascii (repeat "a"%char 260) ++ "\NSudo.exe")%string.
Proof.
  apply (M2PathFindFileName_stops_at_MAX_PATH
           (string_of_list_ascii (repeat "a"%char 260)) "\NSudo.exe").
  - vm_compute. reflexivity.
  - vm_compute. reflexivity.
  - vm_compute. reflexivity.
Defined.

(** ** CNSudoResourceManagement::Initialize *)

Lemma c_str_cons (a : ascii) (s : string) :
  Ascii.eqb a NUL = false -> c_str (String a s) = String a (c_str s).
Proof. intros N. unfold c_str. simpl. rewrite N. reflexivity. Qed.

Lemma c_str_NUL_free (s : string) : NUL_free (c_str s) = true.
Proof.
  induction s as [|a s IH]; [reflexivity|].
  destruct (Ascii.eqb a NUL) eqn:N.
  - unfold c_str. simpl. rewrite N. reflexivity.
  - rewrite (c_str_cons a s N). simpl. rewrite N. exact IH.
Qed.

Lemma wcsrchr_c_str (s : string) (c : ascii) :
  wcsrchr (c_str s) c = wcsrchr s c.
Proof.
  induction s as [|a s IH]; [reflexivity|].
  destruct (Ascii.eqb a NUL) eqn:N.
  - unfold c_str. simpl. rewrite N. reflexivity.
  - rewrite (c_str_cons a s N). simpl. rewrite N, IH. reflexivity.
Qed.

(** Cutting a path at the last occurrence of [c]. *)
Lemma wcsrchr_split (c : ascii) (s : string) :
  forall i,
    Ascii.eqb c NUL = false ->
    wcsrchr s c = Some i ->
    exists name,
      c_str s =
        (resize (poke s i NUL) (wcslen (poke s i NUL)) ++ String c name)%string /\
      wcsrchr name c = None /\
      NUL_free name = true /\
      NUL_free (resize (poke s i NUL) (wcslen (poke s i NUL))) = true.
Proof.
  induction s as [|a s IH]; intros i C W; [discriminate|].
  simpl in W. destruct (Ascii.eqb a NUL) eqn:N; [discriminate|].
  destruct (wcsrchr s c) as [j|] eqn:R.
  - injection W as <-.
    destruct (IH j C eq_refl) as (name & E & W' & F & G).
    exists name. simpl. rewrite N. simpl.
    rewrite (c_str_cons a s N), E, N. simpl. auto.
  - destruct (Ascii.eqb a c) eqn:A; [|discriminate]. injection W as <-.
    apply Ascii.eqb_eq in A as ->.
    exists (c_str s). simpl. rewrite (c_str_cons c s N).
    rewrite wcsrchr_c_str, c_str_NUL_free. auto.
Qed.

(** X12 - Initialising a manager that is not initialised records the
    module handle and the path of the executable, and sets the application
    path to the path cut at its last backslash: the path reads as the
    application path, a backslash, and a file name without backslash; the
    application path contains no NUL.  When the path has no backslash the
    call does not return: it stores through the null pointer. *)
Theorem Initialize_splits_module_path (GetModuleHandleW : Z)
    (M2GetCurrentProcessModulePath : string) (g : CNSudoResourceManagement) :
  m_IsInitialized g = false ->
  match Initialize GetModuleHandleW M2GetCurrentProcessModulePath g with
  | Some g' =>
      m_IsInitialized g' = true /\
      m_Instance g' = GetModuleHandleW /\
      m_ExePath g' = M2GetCurrentProcessModulePath /\
      NUL_free (m_AppPath g') = true /\
      exists name,
        c_str M2GetCurrentProcessModulePath =
          (m_AppPath g' ++ String "\" name)%string /\
        wcsrchr name "\" = None /\
        NUL_free name = true
  | None => wcsrchr M2GetCurrentProcessModulePath "\" = None
  end.
Proof.
  intros U. unfold Initialize. rewrite U. simpl.
  destruct (wcsrchr M2GetCurrentProcessModulePath "\") as [i|] eqn:W;
    [|reflexivity].
  destruct (wcsrchr_split "\" _ i eq_refl W) as (name & E & W' & F & G).
  simpl. repeat split; try reflexivity; [exact G|].
  exists name. auto.
Qed.

Lemma Initialize_splits_module_path_witness :
  match Initialize 0x400000 "C:\NSudo\NSudo.exe" g_ResourceManagement with
  | Some g' =>
      m_IsInitialized g' = true /\
      m_Instance g' = 0x400000 /\
      m_ExePath g' = "C:\NSudo\NSudo.exe"%string /\
      NUL_free (m_AppPath g') = true /\
      exists name,
        c_str "C:\NSudo\NSudo.exe" =
          (m_AppPath g' ++ String "\" name)%string /\
        wcsrchr name "\" = None /\
        NUL_free name = true
  | None => wcsrchr "C:\NSudo\NSudo.exe" "\" = None
  end.
Proof.
  apply (Initialize_splits_module_path 0x400000 "C:\NSudo\NSudo.exe"
           g_ResourceManagement).
  reflexivity.
Defined.

(** X13 - Initialisation happens once: after a call that returned, any
    further call, whatever the module handle and path then are, changes
    nothing. *)
Theorem Initialize_once (GetModuleHandleW GetModuleHandleW' : Z)
    (M2GetCurrentProcessModulePath M2GetCurrentProcessModulePath' : string)
    (g g' : CNSudoResourceManagement) :
  Initialize GetModuleHandleW M2GetCurrentProcessModulePath g = Some g' ->
  Initialize GetModuleHandleW' M2GetCurrentProcessModulePath' g' = Some g'.
Proof.
  unfold Initialize. destruct (m_IsInitialized g) eqn:U; simpl.
  - intros [= <-]. rewrite U. reflexivity.
  - destruct (wcsrchr M2GetCurrentProcessModulePath "\"); [|discriminate].
    intros [= <-]. reflexivity.
Qed.

Lemma Initialize_once_witness :
  Initialize 0 "D:\other.exe"
    {| m_IsInitialized := true; m_Instance := 0x400000;
       m_ExePath := "C:\NSudo\NSudo.exe"; m_AppPath := "C:\NSudo" |}
  = Some {| m_IsInitialized := true; m_Instance := 0x400000;
            m_ExePath := "C:\NSudo\NSudo.exe"; m_AppPath := "C:\NSudo" |}.
Proof.
  apply (Initialize_once 0x400000 0 "C:\NSudo\NSudo.exe" "D:\other.exe"
           g_ResourceManagement).
  reflexivity.
Defined.

(** ** NSudoMain, from the command line to the process *)

(** X14 - On a platform where no call fails, when the resource manager
    initialises and the unresolved command line is not empty, [NSudoMain]
    returns 0 and leaves exactly one process: it runs the unresolved
    command line, expanded, in the directory of the executable. *)
Theorem NSudoMain_launches_in_application_directory
    (caller lsass service : Token) (expand : string -> string)
    (fault : Stage -> HRESULT) (GetModuleHandleW : Z)
    (M2GetCurrentProcessModulePath GetCommandLineW : string)
    (M2SpiltCommandLineEx : string -> string * string)
    (g g' : CNSudoResourceManagement) :
  (forall s, fault s = S_OK) ->
  Initialize GetModuleHandleW M2GetCurrentProcessModulePath g = Some g' ->
  empty (M2SpiltCommandLineEx GetCommandLineW).2 = false ->
  exists w,
    NSudoMain fault GetModuleHandleW M2GetCurrentProcessModulePath
      GetCommandLineW M2SpiltCommandLineEx g
      (boot caller lsass service expand) = Some (0, g', w) /\
    w_processes w =
      [ launched_process caller expand
          (c_str (M2SpiltCommandLineEx GetCommandLineW).2)
          (Some (c_str (m_AppPath g'))) ].
Proof.
  intros F I E. unfold NSudoMain. rewrite I.
  destruct (M2SpiltCommandLineEx GetCommandLineW) as [a u]. simpl in E |- *.
  rewrite E.
  rewrite (NSudoCreateProcess_ext fault no_fault _ _ _ F).
  assert (w_processes
            (NSudoCreateProcess no_fault (c_str u) (Some (c_str (m_AppPath g')))
               (log ComInitialized (boot caller lsass service expand))).2 =
          [ launched_process caller expand (c_str u)
              (Some (c_str (m_AppPath g'))) ]) as P
    by (vm_compute; reflexivity).
  destruct (NSudoCreateProcess no_fault _ _ _) as [hr w].
  exists w. split; [reflexivity|exact P].
Qed.

Lemma NSudoMain_launches_in_application_directory_witness :
  exists w,
    NSudoMain no_fault 0x400000 "C:\NSudo\NSudo.exe" "NSudo.exe cmd /k"
      (fun _ => ("NSudo.exe", "cmd /k")%string) g_ResourceManagement
      (boot user_token lsass_token trusted_installer_token (fun s => s))
    = Some (0,
            {| m_IsInitialized := true; m_Instance := 0x400000;
               m_ExePath := "C:\NSudo\NSudo.exe"; m_AppPath := "C:\NSudo" |},
            w) /\
    w_processes w =
      [ launched_process user_token (fun s => s)
          "cmd /k"%string (Some "C:\NSudo"%string) ].
Proof.
  apply (NSudoMain_launches_in_application_directory user_token lsass_token
           trusted_installer_token (fun s => s) no_fault 0x400000
           "C:\NSudo\NSudo.exe" "NSudo.exe cmd /k"
           (fun _ => ("NSudo.exe", "cmd /k")%string) g_ResourceManagement).
  - reflexivity.
  - reflexivity.
  - reflexivity.
Defined.

(** ** M2LoadResource *)

(** X15 - [M2LoadResource] on every path.  With a null structure it
    returns [E_INVALIDARG] and writes nothing.  Otherwise the structure is
    always written, and what it held before the call has no influence on
    the outcome: it is overwritten.  When the lookup fails the structure is
    left with size 0 and a null pointer and the status is the last error of
    the lookup; when the lookup succeeds [Size] is the size of the resource
    found, also when the load then fails, in which case [Pointer] stays null
    and the status is the last error of the load; when both succeed
    [Pointer] is the locked resource and the status is [S_OK].  So a
    non-null [Pointer] means that the resource was found, that it was
    loaded, that [S_OK] was returned and that [Size] is its size. *)
Theorem M2LoadResource_outcome (P : ResourcePlatform)
    (before other : M2_RESOURCE_INFO) (hModule : Z) (lpType lpName : LPCWSTR) :
  M2LoadResource P None hModule lpType lpName = (E_INVALIDARG, None) /\
  M2LoadResource P (Some before) hModule lpType lpName =
    M2LoadResource P (Some other) hModule lpType lpName /\
  exists (hr : HRESULT) (info : M2_RESOURCE_INFO),
    M2LoadResource P (Some before) hModule lpType lpName = (hr, Some info) /\
    hr =
      (if FindResourceExW P hModule lpType lpName LANG_NEUTRAL_SUBLANG_NEUTRAL
          =? 0
       then HRESULT_FROM_WIN32_DWORD (GetLastError_after_find P)
       else if LoadResource P hModule
                 (FindResourceExW P hModule lpType lpName
                    LANG_NEUTRAL_SUBLANG_NEUTRAL) =? 0
            then HRESULT_FROM_WIN32_DWORD (GetLastError_after_load P)
            else S_OK) /\
    Size info =
      (if FindResourceExW P hModule lpType lpName LANG_NEUTRAL_SUBLANG_NEUTRAL
          =? 0
       then 0
       else SizeofResource P hModule
              (FindResourceExW P hModule lpType lpName
                 LANG_NEUTRAL_SUBLANG_NEUTRAL)) /\
    Pointer info =
      (if (FindResourceExW P hModule lpType lpName LANG_NEUTRAL_SUBLANG_NEUTRAL
           =? 0)
          || (LoadResource P hModule
                (FindResourceExW P hModule lpType lpName
                   LANG_NEUTRAL_SUBLANG_NEUTRAL) =? 0)
       then nullptr
       else LockResource P
              (LoadResource P hModule
                 (FindResourceExW P hModule lpType lpName
                    LANG_NEUTRAL_SUBLANG_NEUTRAL))) /\
    (Pointer info = nullptr \/
     (hr = S_OK /\
      FindResourceExW P hModule lpType lpName LANG_NEUTRAL_SUBLANG_NEUTRAL
        <> 0 /\
      LoadResource P hModule
        (FindResourceExW P hModule lpType lpName LANG_NEUTRAL_SUBLANG_NEUTRAL)
        <> 0 /\
      Size info =
        SizeofResource P hModule
          (FindResourceExW P hModule lpType lpName
             LANG_NEUTRAL_SUBLANG_NEUTRAL) /\
      Pointer info =
        LockResource P
          (LoadResource P hModule
             (FindResourceExW P hModule lpType lpName
                LANG_NEUTRAL_SUBLANG_NEUTRAL)))).
Proof.
  split; [reflexivity|]. split; [reflexivity|].
  unfold M2LoadResource.
  destruct (FindResourceExW P hModule lpType lpName _ =? 0) eqn:F.
  - eexists _, _. split; [reflexivity|]. simpl. auto.
  - destruct (LoadResource P hModule _ =? 0) eqn:L.
    + eexists _, _. split; [reflexivity|]. simpl. auto.
    + eexists _, _. split; [reflexivity|]. simpl.
      apply Z.eqb_neq in F, L. auto 10.
Qed.

(** A lookup that fails with [ERROR_RESOURCE_TYPE_NOT_FOUND] (1813), on a
    structure that held something else before. *)
Example M2LoadResource_not_found :
  M2LoadResource
    {| FindResourceExW := fun _ _ _ _ => 0;
       SizeofResource := fun _ _ => 42;
       LoadResource := fun _ _ => 0x2000;
       LockResource := fun _ => 0x3000;
       GetLastError_after_find := 1813; GetLastError_after_load := 0 |}
    (Some {| Size := 7; Pointer := 0x9000 |}) 0x400000 "String"%string "#1"%string
  = (0x80070715 - 2 ^ 32, Some {| Size := 0; Pointer := nullptr |}).
Proof. reflexivity. Qed.

(** A load that fails after a lookup that succeeded: the size is that of
    the resource found and the pointer is null. *)
Example M2LoadResource_not_loaded :
  M2LoadResource
    {| FindResourceExW := fun _ _ _ _ => 0x1000;
       SizeofResource := fun _ _ => 42;
       LoadResource := fun _ _ => 0;
       LockResource := fun _ => 0x3000;
       GetLastError_after_find := 0; GetLastError_after_load := 8 |}
    (Some {| Size := 7; Pointer := 0x9000 |}) 0x400000 "String"%string "#1"%string
  = (0x80070008 - 2 ^ 32, Some {| Size := 42; Pointer := nullptr |}).
Proof. reflexivity. Qed.

(** A resource that is found and loaded. *)
Example M2LoadResource_loaded :
  M2LoadResource
    {| FindResourceExW := fun _ _ _ _ => 0x1000;
       SizeofResource := fun _ _ => 42;
       LoadResource := fun _ _ => 0x2000;
       LockResource := fun _ => 0x3000;
       GetLastError_after_find := 0; GetLastError_after_load := 0 |}
    (Some {| Size := 7; Pointer := 0x9000 |}) 0x400000 "String"%string "#1"%string
  = (S_OK, Some {| Size := 42; Pointer := 0x3000 |}).
Proof. reflexivity. Qed.

(** ** M2::CObject, continued *)

Section CObjectOwnership.

Context {TObject W : Type} `{EqDecision TObject}.

(** X16 - [Detach] hands the object stored to the caller and gives up
    ownership without releasing it: the wrapper is invalid afterwards, and
    neither [Close] nor the destructor releases anything. *)
Theorem CObject_Detach_transfers (D : TObjectDefiner TObject W)
    (this : CObject.t) :
  (CObject.Detach D this).2 = CObject.m_Object this /\
  CObject.IsInvalid D (CObject.Detach D this).1 = true /\
  CObject.Close D (CObject.Detach D this).1 = (GetInvalidValue, this.2) /\
  CObject.destroy D (CObject.Detach D this).1 = this.2.
Proof.
  assert (CObject.IsInvalid D (CObject.Detach D this).1 = true) as I.
  { unfold CObject.IsInvalid. apply bool_decide_eq_true. reflexivity. }
  unfold CObject.destroy, CObject.Close. rewrite I. auto.
Qed.

(** One step keeps the releases made and the objects still to come free
    of duplicates. *)
Lemma step_no_double_release (invalid : TObject) (o : TObject)
    (released : list TObject) (op : CObject.Op) (ops : list CObject.Op) :
  NoDup (released ++ valid_objects invalid (o :: values_put (op :: ops))) ->
  NoDup ((CObject.step (Recorder TObject invalid) (o, released) op).2 ++
         valid_objects invalid
           ((CObject.step (Recorder TObject invalid) (o, released) op).1 ::
            values_put ops)).
Proof.
  intros N. apply (sublist_NoDup _ _ N). apply step_releases_sublist.
Qed.

(** X17 - No object is released twice: over any sequence of [Close],
    assignment, [Detach] and stores through [operator&], the releases made
    are pairwise distinct, provided the objects handed to the wrapper are
    pairwise distinct and were not released before. *)
Theorem CObject_never_releases_twice (invalid : TObject)
    (ops : list CObject.Op) (o : TObject) (released : list TObject) :
  NoDup (released ++ valid_objects invalid (o :: values_put ops)) ->
  NoDup (CObject.exec (Recorder TObject invalid) ops (o, released)).2.
Proof.
  revert o released.
  induction ops as [|op ops IH]; intros o released N.
  - simpl. apply NoDup_app in N as [N _]. exact N.
  - change (CObject.exec (Recorder TObject invalid) (op :: ops) (o, released))
      with (CObject.exec (Recorder TObject invalid) ops
              (CObject.step (Recorder TObject invalid) (o, released) op)).
    pose proof (step_no_double_release invalid o released op ops N) as S.
    destruct (CObject.step (Recorder TObject invalid) (o, released) op)
      as [o' released'].
    apply IH. exact S.
Qed.

(** X18 - With only [Close] and assignment in use, by the time the
    destructor has run every valid object that was put into the wrapper -
    the one it was constructed with and the ones assigned - has been
    released exactly once, in the order in which they were put in,
    provided these objects are pairwise distinct. *)
Theorem CObject_releases_each_once (invalid : TObject)
    (ops : list CObject.Op) (o : TObject) (released : list TObject) :
  closes_and_assigns ops = true ->
  NoDup (valid_objects invalid (o :: values_put ops)) ->
  CObject.destroy (Recorder TObject invalid)
    (CObject.exec (Recorder TObject invalid) ops (o, released)) =
  released ++ valid_objects invalid (o :: values_put ops).
Proof.
  revert o released.
  induction ops as [|op ops IH]; intros o released C N.
  - simpl. rewrite valid_objects_cons.
    unfold CObject.destroy, CObject.Close, CObject.IsInvalid, CObject.m_Object.
    change (valid_objects invalid (values_put [])) with (@nil TObject).
    simpl. destruct (bool_decide (o = invalid)); simpl;
      rewrite ?app_nil_r; reflexivity.
  - change (CObject.exec (Recorder TObject invalid) (op :: ops) (o, released))
      with (CObject.exec (Recorder TObject invalid) ops
              (CObject.step (Recorder TObject invalid) (o, released) op)).
    simpl in C. apply andb_true_iff in C as [C1 C2].
    rewrite valid_objects_cons in N |- *.
    destruct op as [|v| |v]; try discriminate; simpl in *;
      unfold CObject.Assign, CObject.Close, CObject.IsInvalid,
        CObject.m_Object; simpl.
    + destruct (bool_decide (o = invalid)) eqn:E; simpl.
      * rewrite IH, valid_objects_cons, E; [reflexivity|exact C2|].
        rewrite valid_objects_cons, E. exact N.
      * rewrite IH, valid_objects_cons; [|exact C2|].
        -- rewrite bool_decide_eq_true_2 by reflexivity.
           rewrite <- app_assoc. reflexivity.
        -- rewrite valid_objects_cons.
           rewrite bool_decide_eq_true_2 by reflexivity.
           apply NoDup_app in N as (_ & _ & N). exact N.
    + destruct (bool_decide (v <> o)) eqn:V; simpl.
      * rewrite IH; [|exact C2|apply NoDup_app in N as (_ & _ & N); exact N].
        destruct (bool_decide (o = invalid)); simpl;
          rewrite <- ?app_assoc; reflexivity.
      * apply bool_decide_eq_false in V.
        assert (v = o) as -> by (destruct (decide (v = o)); tauto).
        rewrite valid_objects_cons in N |- *.
        destruct (bool_decide (o = invalid)) eqn:E; simpl in *.
        -- rewrite IH, valid_objects_cons, E; [reflexivity|exact C2|].
           rewrite valid_objects_cons, E. exact N.
        -- apply NoDup_cons in N as [N _]. exfalso. apply N.
           apply elem_of_cons. left. reflexivity.
Qed.

End CObjectOwnership.

Lemma CObject_never_releases_twice_witness :
  NoDup (CObject.exec (Recorder Z (-1))
           [CObject.OpAssign 8; CObject.OpClose; CObject.OpStore 12;
            CObject.OpAssign 16; CObject.OpDetach; CObject.OpClose]
           (4, [])).2.
Proof.
  apply (CObject_never_releases_twice (-1)
           [CObject.OpAssign 8; CObject.OpClose; CObject.OpStore 12;
            CObject.OpAssign 16; CObject.OpDetach; CObject.OpClose] 4 []).
  apply (bool_decide_unpack _). vm_compute. exact I.
Defined.

Lemma CObject_releases_each_once_witness :
  CObject.destroy (Recorder Z (-1))
    (CObject.exec (Recorder Z (-1))
       [CObject.OpAssign 8; CObject.OpClose; CObject.OpAssign (-1);
        CObject.OpAssign 12]
       (4, [])) =
  [] ++ valid_objects (-1) (4 :: values_put
       [CObject.OpAssign 8; CObject.OpClose; CObject.OpAssign (-1);
        CObject.OpAssign 12]).
Proof.
  apply (CObject_releases_each_once (-1)
           [CObject.OpAssign 8; CObject.OpClose; CObject.OpAssign (-1);
            CObject.OpAssign 12] 4 []).
  - reflexivity.
  - apply (bool_decide_unpack _). vm_compute. exact I.
Defined.

(** ** M2::CMemory *)

Lemma CMemory_Free_invariant (h0 : Heap) (this : PVOID * Heap) :
  CMemory_invariant h0 this ->
  CMemory_invariant h0 (CMemory.Free this) /\ (CMemory.Free this).1 = nullptr.
Proof.
  destruct this as [p h]. unfold CMemory_invariant. simpl.
  intros (B & K & [[-> L]|(N & F & L)]).
  - unfold CMemory.Free, CObject.Close, CObject.IsInvalid. simpl.
    split; [|reflexivity]. split; [exact B|]. split; [exact K|].
    left. split; [reflexivity|exact L].
  - unfold CMemory.Free, CObject.Close, CObject.IsInvalid. simpl.
    rewrite bool_decide_eq_false_2 by exact N. simpl.
    unfold free. pose proof N as N'. apply Z.eqb_neq in N'. rewrite N'.
    destruct (decide (p ∈ h_live h)) as [I|I]; [|set_solver].
    simpl. split; [|reflexivity]. split; [exact B|]. split.
    + destruct K as [K1 K2]. split; [exact K1|]. simpl.
      intros q Q. apply K2. set_solver.
    + left. split; [reflexivity|]. set_solver.
Qed.

Lemma CMemory_Alloc_invariant (h0 : Heap) (ok : bool) (Size : Z)
    (this : PVOID * Heap) :
  CMemory_invariant h0 this ->
  CMemory_invariant h0 (CMemory.Alloc ok Size this).1.
Proof.
  intros I. destruct (CMemory_Free_invariant h0 this I) as [J E].
  unfold CMemory.Alloc.
  destruct (CMemory.Free this) as [p h]. simpl in E. subst p.
  destruct J as (B & [K1 K2] & [[_ L]|(N & _)]); [|contradiction].
  simpl in *. unfold malloc. destruct ok; simpl.
  - unfold CMemory_invariant, heap_ok. simpl.
    split; [exact B|]. split; [split; [lia|]|].
    + intros q Q. apply elem_of_union in Q as [Q|Q].
      * apply elem_of_singleton in Q. lia.
      * apply K2 in Q. lia.
    + right. split; [unfold nullptr; lia|]. split; [|rewrite L; reflexivity].
      intros Q. rewrite <- L in Q. apply K2 in Q. lia.
  - unfold CMemory_invariant, heap_ok. simpl.
    split; [exact B|]. split; [split; assumption|].
    left. split; [reflexivity|exact L].
Qed.

Lemma CMemory_exec_invariant (h0 : Heap) (ops : list CMemory.Op) :
  forall this,
    CMemory_invariant h0 this -> CMemory_invariant h0 (CMemory.exec ops this).
Proof.
  induction ops as [|op ops IH]; intros this I; [exact I|].
  change (CMemory.exec (op :: ops) this)
    with (CMemory.exec ops (CMemory.step this op)).
  apply IH. destruct op as [ok Size|]; simpl.
  - apply CMemory_Alloc_invariant. exact I.
  - apply CMemory_Free_invariant. exact I.
Qed.

(** X19 - A memory object never leaks and never frees twice: whatever
    sequence of [Alloc] (succeeding or not) and [Free] it goes through
    between construction and destruction, the live blocks of the heap are
    afterwards the ones that were live before, and no pointer that was not
    live was passed to [free]. *)
Theorem CMemory_lifetime_balanced (ops : list CMemory.Op) (h : Heap) :
  heap_ok h ->
  h_live (CMemory.lifetime ops h) = h_live h /\
  h_bad_frees (CMemory.lifetime ops h) = h_bad_frees h.
Proof.
  intros K. unfold CMemory.lifetime.
  assert (CMemory_invariant h (CObject.create GetInvalidValue h)) as I.
  { unfold CMemory_invariant, CObject.create. simpl.
    split; [reflexivity|]. split; [exact K|].
    left. split; reflexivity. }
  apply (CMemory_exec_invariant h ops) in I.
  destruct (CMemory_Free_invariant h _ I) as [(B & _ & [[_ L]|(N & _)]) E];
    [|contradiction].
  unfold CObject.destroy. split; [exact L|exact B].
Qed.

Lemma CMemory_lifetime_balanced_witness :
  h_live (CMemory.lifetime
            [CMemory.OpAlloc true 64; CMemory.OpAlloc false 1024;
             CMemory.OpAlloc true 8; CMemory.OpAlloc true 8; CMemory.OpFree]
            sample_heap)
  = h_live sample_heap /\
  h_bad_frees (CMemory.lifetime
            [CMemory.OpAlloc true 64; CMemory.OpAlloc false 1024;
             CMemory.OpAlloc true 8; CMemory.OpAlloc true 8; CMemory.OpFree]
            sample_heap)
  = h_bad_frees sample_heap.
Proof.
  apply (CMemory_lifetime_balanced
           [CMemory.OpAlloc true 64; CMemory.OpAlloc false 1024;
            CMemory.OpAlloc true 8; CMemory.OpAlloc true 8; CMemory.OpFree]
           sample_heap).
  split; simpl; [lia|].
  intros p H. apply elem_of_singleton in H. lia.
Defined.
